(** * CacheSim: a set-associative cache simulator (cache_sim.cpp)

    A shallow embedding of the [CacheSim] class: the constructor that derives
    the address-decoding constants, [get_set] / [get_tag], the
    probe-and-replace routine with its recency update, the statistics
    accumulator and the end-of-run report.

    C++ [unsigned] is a [Z] in [0, 2^32), [std::uint64_t] a [Z] in [0, 2^64),
    [int] and [std::int64_t] are signed with their wrap-around written out,
    [double] is the binary64 type of the Standard Library.  The four
    [std::vector]s of the cache are lists read with [!!!] and written with
    [<[ _ := _ ]>]; the [std::span]s over one set are the index range
    [base, base + associativity) of those lists. *)

From Stdlib Require Import ZArith Bool Lia Floats.
From stdpp Require Import base list.

Local Open Scope Z_scope.

(** ** Machine integers *)

(** [unsigned]: arithmetic modulo 2^32. *)
Definition u32 (z : Z) : Z := z mod 2 ^ 32.

(** [int]: two's complement on 32 bits. *)
Definition i32 (z : Z) : Z := (z + 2 ^ 31) mod 2 ^ 32 - 2 ^ 31.

(** [std::int64_t]: two's complement on 64 bits. *)
Definition i64 (z : Z) : Z := (z + 2 ^ 63) mod 2 ^ 64 - 2 ^ 63.

Definition is_u32 (z : Z) : Prop := 0 <= z < 2 ^ 32.
Definition is_u64 (z : Z) : Prop := 0 <= z < 2 ^ 64.
Definition is_i64 (z : Z) : Prop := - 2 ^ 63 <= z < 2 ^ 63.

(** [std::__popcount] on an [unsigned]: the number of set bits among the low
    32. *)
Definition popcount (x : Z) : Z :=
  fold_right (fun i acc => Z.b2z (Z.testbit x (Z.of_nat i)) + acc) 0 (seq 0 32).

(** [(double) n] for an integer [n]: round to nearest, ties to even. *)
Definition to_double (n : Z) : float :=
  SF2Prim (binary_normalize prec emax n 0 false).

(** A power of two, as the bit test [x > 0 && (x & (x - 1)) == 0]. *)
Definition is_pow2 (x : Z) : bool := (0 <? x) && (Z.land x (x - 1) =? 0).

(** ** The simulator object *)

Record CacheSim := mkCacheSim {
  (* Cache settings *)
  block_size : Z;
  associativity : Z;
  capacity : Z;
  miss_penalty : Z;
  dirty_wb_penalty : Z;
  (* Access settings *)
  set_offset : Z;
  tag_offset : Z;
  set_mask : Z;
  (* The actual cache state *)
  tags : list Z;
  dirty : list bool;
  valid : list bool;
  priority : list Z;
  (* Cache statistics *)
  writes_ : Z;
  mem_accesses_ : Z;
  misses_ : Z;
  dirty_wb_ : Z;
  instructions_ : Z
}.

(** The set count the constructor computes: [capacity / (block_size *
    associativity)], the product taken on [unsigned]. *)
Definition sets_of (bs a c : Z) : Z := c / u32 (bs * a).

(** The constructor. It checks nothing; the only way it can stop is one of its
    two unsigned divisions dividing by zero, which has no defined result
    ([None]). The vectors are resized to [num_blocks] value-initialised
    entries. *)
Definition CacheSim_new (bs a c mp wbp : Z) : option CacheSim :=
  if (bs =? 0) || (u32 (bs * a) =? 0) then None
  else
    let num_blocks := Z.to_nat (c / bs) in
    let block_bits := popcount (u32 (bs - 1)) in
    let sets := sets_of bs a c in
    let mask := u32 (sets - 1) in
    let set_bits := popcount mask in
    Some {| block_size := bs;
            associativity := a;
            capacity := c;
            miss_penalty := mp;
            dirty_wb_penalty := wbp;
            set_offset := block_bits;
            tag_offset := block_bits + set_bits;
            set_mask := mask;
            tags := replicate num_blocks 0;
            dirty := replicate num_blocks false;
            valid := replicate num_blocks false;
            priority := replicate num_blocks 0;
            writes_ := 0;
            mem_accesses_ := 0;
            misses_ := 0;
            dirty_wb_ := 0;
            instructions_ := 0 |}.

(** ** Address decoding *)

(** [get_set]: shift the set bits to the bottom, mask them, return as [int]. *)
Definition get_set (s : CacheSim) (address : Z) : Z :=
  let shifted_address := Z.shiftr address (set_offset s) in
  i32 (Z.land shifted_address (set_mask s)).

(** [get_tag]: all the bits above the set bits. *)
Definition get_tag (s : CacheSim) (address : Z) : Z :=
  Z.shiftr address (tag_offset s).

(** [base = set * associativity], an [int] times an [unsigned]: the first
    slot of the address's set. *)
Definition set_base (s : CacheSim) (address : Z) : nat :=
  Z.to_nat (u32 (get_set s address * associativity s)).

(** Number of lanes of a set, [local_valid.size()]. *)
Definition lanes (s : CacheSim) : nat := Z.to_nat (associativity s).

(** ** Probe *)

(** The lookup loop over lanes [i, i + n) of the set at [base]. It returns the
    lane of the first valid line holding [tag], if any (the [break]), and
    [invalid_index], the last invalid lane seen before that (initially -1).
    The source keeps both lanes in an [int]; they are kept here as they are
    counted, which is the same as long as the set has fewer than 2^31 lanes.
    Every statement about [probe] below is made for an associativity below
    2^31. *)
Fixpoint scan_set (vl : list bool) (tg : list Z) (base : nat) (tag : Z)
    (n i : nat) (invalid_index : Z) : option nat * Z :=
  match n with
  | O => (None, invalid_index)
  | S n' =>
      if negb (vl !!! (base + i)%nat) then
        scan_set vl tg base tag n' (S i) (Z.of_nat i)
      else if negb (tag =? tg !!! (base + i)%nat) then
        scan_set vl tg base tag n' (S i) invalid_index
      else (Some i, invalid_index)
  end.

(** [std::ranges::max_element] (spelled [std::ranges : max_element] in the
    source) over the lanes of a set, continued from lane [i] with [best] the
    lane of the largest priority so far: a later lane replaces it only when
    strictly larger, so the first largest wins. *)
Fixpoint max_element_from (pr : list Z) (base : nat) (n i best : nat) : nat :=
  match n with
  | O => best
  | S n' =>
      max_element_from pr base n' (S i)
        (if pr !!! (base + best)%nat <? pr !!! (base + i)%nat then i else best)
  end.

Definition max_element (pr : list Z) (base n : nat) : nat :=
  max_element_from pr base (Nat.pred n) 1 0.

(** The lambda of the recency update: [p] against the touched line's priority
    [pidx] as it is read at that moment; [p < associativity] compares an [int]
    with an [unsigned], so [p] is converted to [unsigned]. *)
Definition bump (assoc pidx p : Z) : Z :=
  if (p <=? pidx) && (u32 p <? assoc) then i32 (p + 1) else p.

(** [std::transform] of the set's priorities onto themselves, lanes
    [i, i + n) in order. The lambda reads [local_priority[index]] from the
    vector being written, so once lane [index] itself has been rewritten the
    later lanes are compared with its new value. *)
Fixpoint transform_priority (assoc : Z) (base index : nat) (n i : nat)
    (pr : list Z) : list Z :=
  match n with
  | O => pr
  | S n' =>
      let p := pr !!! (base + i)%nat in
      let p' := bump assoc (pr !!! (base + index)%nat) p in
      transform_priority assoc base index n' (S i) (<[(base + i)%nat := p']> pr)
  end.

(** The recency update: the transform, then the touched lane gets 0. *)
Definition update_priority (assoc : Z) (base index n : nat) (pr : list Z)
    : list Z :=
  <[(base + index)%nat := 0]> (transform_priority assoc base index n 0 pr).

(** [probe(type, address)]: returns the new simulator and [(hit, dirty_wb)].
    [type] is true for a write. The lookup loop gives [hit] and the lane it
    broke at; on a miss the lane to refill is chosen; the recency update is
    common to both. The spans of the source are unchecked views: when the set
    lies outside the vectors the source reads and writes past them, which has
    no defined result, whereas [!!!] then reads a default and [<[ _ := _ ]>]
    writes nothing. The definition stands for the source only where the set
    lies inside the four vectors ([set_in_bounds] below), and every statement
    about the contents of the vectors is made there. *)
Definition probe (s : CacheSim) (type : bool) (address : Z)
    : CacheSim * (bool * bool) :=
  let tag := get_tag s address in
  let base := set_base s address in
  let n := lanes s in
  let '(found, invalid_index) :=
    scan_set (valid s) (tags s) base tag n 0 (-1) in
  let '(hit, index, dirty_wb, tags', dirty', valid') :=
    match found with
    | Some index =>
        (* we found the line: update the dirty flag *)
        (true, index, false,
         tags s,
         <[(base + index)%nat := dirty s !!! (base + index)%nat || type]>
           (dirty s),
         valid s)
    | None =>
        if 0 <=? invalid_index then
          (* first try to use an invalid line *)
          let index := Z.to_nat invalid_index in
          (false, index, false,
           <[(base + index)%nat := tag]> (tags s),
           <[(base + index)%nat := type]> (dirty s),
           <[(base + index)%nat := true]> (valid s))
        else
          (* otherwise evict the block with the largest priority value *)
          let index := max_element (priority s) base n in
          (false, index, dirty s !!! (base + index)%nat,
           <[(base + index)%nat := tag]> (tags s),
           <[(base + index)%nat := type]> (dirty s),
           valid s)
    end in
  (mkCacheSim (block_size s) (associativity s) (capacity s)
     (miss_penalty s) (dirty_wb_penalty s)
     (set_offset s) (tag_offset s) (set_mask s)
     tags' dirty' valid'
     (update_priority (associativity s) base index n (priority s))
     (writes_ s) (mem_accesses_ s) (misses_ s) (dirty_wb_ s)
     (instructions_ s),
   (hit, dirty_wb)).

(** ** Statistics *)

(** [update_stats(instructions, type, hit, dirty_wb)]. The four counters are
    added to; [dirty_wb_] is assigned. *)
Definition update_stats (s : CacheSim) (instructions : Z)
    (type hit dirty_wb : bool) : CacheSim :=
  mkCacheSim (block_size s) (associativity s) (capacity s)
    (miss_penalty s) (dirty_wb_penalty s)
    (set_offset s) (tag_offset s) (set_mask s)
    (tags s) (dirty s) (valid s) (priority s)
    (i64 (writes_ s + Z.b2z type))
    (i64 (mem_accesses_ s + 1))
    (i64 (misses_ s + Z.b2z (negb hit)))
    (Z.b2z dirty_wb)
    (i64 (instructions_ s + instructions)).

(** One decoded trace line: [(type, address, instructions)]. *)
Abbreviation access := (bool * Z * Z)%type.

(** The body of the loop of [run]: probe, then update the statistics. The
    probe's outcome is returned as well. *)
Definition step (s : CacheSim) (a : access) : CacheSim * (bool * bool) :=
  let '(type, address, instructions) := a in
  let '(s', (hit, dirty_wb)) := probe s type address in
  (update_stats s' instructions type hit dirty_wb, (hit, dirty_wb)).

(** [run] over an already parsed trace. *)
Definition run (s : CacheSim) (trace : list access) : CacheSim :=
  fold_left (fun s a => fst (step s a)) trace s.

(** The outcomes [(hit, dirty_wb)] of the probes of a run, in trace order. *)
Fixpoint outcomes (s : CacheSim) (trace : list access) : list (bool * bool) :=
  match trace with
  | [] => []
  | a :: trace' => snd (step s a) :: outcomes (fst (step s a)) trace'
  end.

(** ** Report *)

(** What [dump_stats] prints below the cache settings. *)
Record Report := mkReport {
  r_total_accesses : Z;
  r_reads : Z;
  r_writes : Z;
  r_miss_rate : float;
  r_misses : Z;
  r_hits : Z;
  r_ipc : float;
  r_instructions : Z;
  r_cycles : Z;
  r_dirty_wb : Z
}.

(** [cycles]: [miss_penalty * misses_], then the two [+=], all on
    [std::int64_t]. *)
Definition cycles_of (s : CacheSim) : Z :=
  let cycles := i64 (miss_penalty s * misses_ s) in
  let cycles := i64 (cycles + i64 (dirty_wb_penalty s * dirty_wb_ s)) in
  i64 (cycles + instructions_ s).

Definition dump_stats (s : CacheSim) : Report :=
  let miss_rate :=
    PrimFloat.mul
      (PrimFloat.div (to_double (misses_ s)) (to_double (mem_accesses_ s)))
      (to_double 100) in
  let hits := i64 (mem_accesses_ s - misses_ s) in
  let cycles := cycles_of s in
  let ipc := PrimFloat.div (to_double (instructions_ s)) (to_double cycles) in
  {| r_total_accesses := mem_accesses_ s;
     r_reads := i64 (mem_accesses_ s - writes_ s);
     r_writes := writes_ s;
     r_miss_rate := miss_rate;
     r_misses := misses_ s;
     r_hits := hits;
     r_ipc := ipc;
     r_instructions := instructions_ s;
     r_cycles := cycles;
     r_dirty_wb := dirty_wb_ s |}.

(** The settings hard coded in [main]. *)
Definition main_sim : option CacheSim :=
  CacheSim_new (Z.shiftl 1 4) (Z.shiftl 1 0) (Z.shiftl 1 14) 30 2.

(** ** Auxiliary notions used in the statements *)

(** The recency update as the specification words it, for comparison: every
    lane is compared with [p0], the touched lane's priority before the
    update. *)
Definition spec_update_priority (assoc : Z) (base index n : nat)
    (pr : list Z) : list Z :=
  let p0 := pr !!! (base + index)%nat in
  <[(base + index)%nat := 0]>
    (take base pr
     ++ map (fun p => if (p <=? p0) && (p <? assoc) then p + 1 else p)
            (take n (drop base pr))
     ++ drop (base + n) pr).

(** The priorities of the lanes of the set of [address]. *)
Definition set_priorities (s : CacheSim) (address : Z) : list Z :=
  take (lanes s) (drop (set_base s address) (priority s)).

Definition set_tags (s : CacheSim) (address : Z) : list Z :=
  take (lanes s) (drop (set_base s address) (tags s)).

(** The set of [address] lies inside the four vectors and is not empty. *)
Definition set_in_bounds (s : CacheSim) (address : Z) : Prop :=
  (0 < lanes s)%nat
  /\ (set_base s address + lanes s <= length (tags s))%nat
  /\ (set_base s address + lanes s <= length (dirty s))%nat
  /\ (set_base s address + lanes s <= length (valid s))%nat
  /\ (set_base s address + lanes s <= length (priority s))%nat.

(** The lane a probe touches: the lane of the hit, else the last invalid lane,
    else the first lane of largest priority. *)
Definition touched_lane (s : CacheSim) (address : Z) : nat :=
  match scan_set (valid s) (tags s) (set_base s address) (get_tag s address)
          (lanes s) 0 (-1) with
  | (Some index, _) => index
  | (None, invalid_index) =>
      if 0 <=? invalid_index then Z.to_nat invalid_index
      else max_element (priority s) (set_base s address) (lanes s)
  end.

(** The set at [base] after the tags [filled] were installed one after the
    other into a cold set: the fills go from the last lane downwards, the
    lanes still invalid all carry priority [length filled], and the filled
    lanes are ranked by age, the latest fill at 0. *)
Record filled_set (s : CacheSim) (base : nat) (filled : list Z) : Prop := {
  fs_count : (length filled <= lanes s)%nat;
  fs_tags : (base + lanes s <= length (tags s))%nat;
  fs_dirty : (base + lanes s <= length (dirty s))%nat;
  fs_valid : (base + lanes s <= length (valid s))%nat;
  fs_priority : (base + lanes s <= length (priority s))%nat;
  fs_cold : forall i, (i < lanes s - length filled)%nat ->
      valid s !!! (base + i)%nat = false
      /\ priority s !!! (base + i)%nat = Z.of_nat (length filled);
  fs_warm : forall i, (lanes s - length filled <= i < lanes s)%nat ->
      valid s !!! (base + i)%nat = true
      /\ tags s !!! (base + i)%nat = filled !!! (lanes s - 1 - i)%nat
      /\ priority s !!! (base + i)%nat =
           Z.of_nat (i - (lanes s - length filled))
}.

(** A configuration the constructor's arithmetic is meant for: non-zero
    sizes, the associativity within [int], the product of block size and
    associativity within [unsigned], block size and set count powers of
    two. *)
Definition valid_config (bs a c : Z) : bool :=
  (0 <? bs) && (0 <? a) && (a <? 2 ^ 31) && (0 <=? c) && (c <? 2 ^ 32)
  && (bs * a <? 2 ^ 32) && is_pow2 bs && is_pow2 (sets_of bs a c).

Definition addr_of (a : access) : Z := snd (fst a).

(** The tag of [address] is held by a valid line of its set. *)
Definition resident (s : CacheSim) (address : Z) : bool :=
  existsb
    (fun i => valid s !!! (set_base s address + i)%nat
              && (tags s !!! (set_base s address + i)%nat =? get_tag s address))
    (seq 0 (lanes s)).

(** Two simulators decode addresses alike. *)
Definition same_geometry (s s0 : CacheSim) : Prop :=
  associativity s = associativity s0 /\ set_offset s = set_offset s0
  /\ tag_offset s = tag_offset s0 /\ set_mask s = set_mask s0.

(** ** Invariants of the states a run reaches *)

(** A configuration whose sets fit the vectors: non-zero sizes, the
    associativity within [int], and at least one whole set in the capacity
    (so the product of block size and associativity does not wrap). Powers of
    two are not asked for. *)
Definition fits_config (bs a c : Z) : bool :=
  (0 <? bs) && (0 <? a) && (a <? 2 ^ 31) && (c <? 2 ^ 32) && (bs * a <=? c).

(** The shape every state of a run has: the four vectors have one length,
    which holds [set_mask + 1] sets of [associativity] lanes, and every
    priority lies between 0 and the associativity. *)
Record wf (s : CacheSim) : Prop := {
  wf_assoc : 0 < associativity s < 2 ^ 31;
  wf_mask : 0 <= set_mask s;
  wf_fit : (set_mask s + 1) * associativity s <= Z.of_nat (length (priority s));
  wf_size : Z.of_nat (length (priority s)) < 2 ^ 32;
  wf_tags : length (tags s) = length (priority s);
  wf_dirty : length (dirty s) = length (priority s);
  wf_valid : length (valid s) = length (priority s);
  wf_prio : Forall (fun p => 0 <= p <= associativity s) (priority s)
}.

(** No two valid lines of one set hold the same tag. Set [k] occupies the
    slots [k * lanes, k * lanes + lanes). *)
Definition unique_tags (s : CacheSim) : Prop :=
  forall k i j : nat,
    (k * lanes s + lanes s <= length (valid s))%nat ->
    (i < lanes s)%nat -> (j < lanes s)%nat ->
    valid s !!! (k * lanes s + i)%nat = true ->
    valid s !!! (k * lanes s + j)%nat = true ->
    tags s !!! (k * lanes s + i)%nat = tags s !!! (k * lanes s + j)%nat ->
    i = j.

(** Every valid line of [s] was put there by an access of [T]: its slot lies
    in the set of that access (decoded as [s0] does) and holds its tag. *)
Definition from_trace (s0 s : CacheSim) (T : list access) : Prop :=
  forall j : nat,
    valid s !! j = Some true ->
    exists x, x ∈ T
      /\ (set_base s0 (addr_of x) <= j < set_base s0 (addr_of x) + lanes s0)%nat
      /\ tags s !! j = Some (get_tag s0 (addr_of x)).

(** A double that is no number to print: NaN or an infinity. *)
Definition not_finite (f : float) : bool :=
  PrimFloat.is_nan f || PrimFloat.is_infinity f.

(** ** Counting over a trace *)

Definition is_write (a : access) : bool := fst (fst a).

Definition instructions_of (a : access) : Z := snd a.

Definition count_writes (trace : list access) : Z :=
  fold_right (fun a n => Z.b2z (is_write a) + n) 0 trace.

Definition total_instructions (trace : list access) : Z :=
  fold_right (fun a n => instructions_of a + n) 0 trace.

Definition count_misses (outs : list (bool * bool)) : Z :=
  fold_right (fun o n => Z.b2z (negb (fst o)) + n) 0 outs.

(** ** Concrete simulators *)

(** Block size 16, associativity 2, capacity 64: two sets of two lanes. *)
Definition two_way_fresh : CacheSim :=
  mkCacheSim 16 2 64 30 2 4 5 1
    (replicate 4 0) (replicate 4 false) (replicate 4 false) (replicate 4 0)
    0 0 0 0 0.

(** The same cache after a write to 0x00, a read of 0x40 (both set 0) and a
    write to 0x10 (set 1): set 0 is full, its older line dirty. *)
Definition two_way_full : CacheSim :=
  run two_way_fresh [(true, 0x00, 1); (false, 0x40, 1); (true, 0x10, 1)].

(** The configuration of [main]: 1024 sets of one lane. *)
Definition direct_fresh : CacheSim :=
  mkCacheSim 16 1 16384 30 2 4 14 1023
    (replicate 1024 0) (replicate 1024 false) (replicate 1024 false)
    (replicate 1024 0)
    0 0 0 0 0.

Definition scenario_trace : list access :=
  [(false, 0x0, 1); (false, 0x1, 1); (false, 0x4000, 1); (false, 0x0, 1)].

Definition three_tags_trace : list access :=
  [(false, 0x00, 1); (true, 0x40, 1); (false, 0x80, 1)].

(** Block size 24, associativity 1, capacity 16384: 682 sets, neither a power
    of two. *)
Definition odd_fresh : CacheSim :=
  mkCacheSim 24 1 16384 30 2 4 9 681
    (replicate 682 0) (replicate 682 false) (replicate 682 false)
    (replicate 682 0)
    0 0 0 0 0.

(** One read charged with -30 instructions: with the miss penalty of 30 the
    cycles of the report cancel to 0 after one access. *)
Definition negative_count_trace : list access := [(false, 0x00, -30)].

Definition reads_trace : list access :=
  [(false, 0x00, 1); (false, 0x40, 1); (false, 0x80, 1); (false, 0x00, 1)].

Definition write_first_trace : list access :=
  [(true, 0x00, 1); (false, 0x40, 1); (false, 0x80, 1)].

(** * Properties *)

(** ** Loops over the lanes of one set *)

Section Lanes.
Variables (vl : list bool) (tg : list Z) (base : nat) (tag : Z).

(** A hit of the lookup loop is a valid lane of the scanned range that holds
    the tag. *)
Lemma scan_set_hit n i inv k inv' :
  scan_set vl tg base tag n i inv = (Some k, inv') ->
  (i <= k < i + n)%nat /\ vl !!! (base + k)%nat = true
  /\ tg !!! (base + k)%nat = tag.
Proof.
  revert i inv. induction n as [|n IH]; intros i inv H; simpl in H.
  - discriminate.
  - destruct (vl !!! (base + i)%nat) eqn:Ev; simpl in H.
    + destruct (tag =? tg !!! (base + i)%nat) eqn:Et; simpl in H.
      * inversion H; subst. apply Z.eqb_eq in Et. repeat split; auto; lia.
      * apply IH in H. intuition lia.
    + apply IH in H. intuition lia.
Qed.

(** A miss means that no valid lane of the range holds the tag. *)
Lemma scan_set_miss n i inv inv' :
  scan_set vl tg base tag n i inv = (None, inv') ->
  forall j, (i <= j < i + n)%nat -> vl !!! (base + j)%nat = true ->
            tg !!! (base + j)%nat <> tag.
Proof.
  revert i inv. induction n as [|n IH]; intros i inv H j Hj Hv; simpl in H.
  - lia.
  - destruct (Nat.eq_dec j i) as [->|Hne].
    + rewrite Hv in H. simpl in H.
      destruct (tag =? tg !!! (base + i)%nat) eqn:Et; simpl in H.
      * discriminate.
      * apply Z.eqb_neq in Et. congruence.
    + destruct (vl !!! (base + i)%nat); simpl in H.
      * destruct (tag =? tg !!! (base + i)%nat); simpl in H;
          [discriminate|]. eapply IH; eauto. lia.
      * eapply IH; eauto. lia.
Qed.

(** On a miss, [invalid_index] is the last invalid lane of the range, or is
    left as it was when every lane is valid. *)
Lemma scan_set_invalid n i inv inv' :
  scan_set vl tg base tag n i inv = (None, inv') ->
  (inv' = inv /\ forall j, (i <= j < i + n)%nat -> vl !!! (base + j)%nat = true)
  \/ (exists j, (i <= j < i + n)%nat /\ inv' = Z.of_nat j
                /\ vl !!! (base + j)%nat = false
                /\ forall j', (j < j' < i + n)%nat ->
                              vl !!! (base + j')%nat = true).
Proof.
  revert i inv. induction n as [|n IH]; intros i inv H; simpl in H.
  - inversion H; subst. left. split; [reflexivity|]. intros; lia.
  - destruct (vl !!! (base + i)%nat) eqn:Ev; simpl in H.
    + destruct (tag =? tg !!! (base + i)%nat); simpl in H; [discriminate|].
      apply IH in H. destruct H as [[-> Hall]|(j & Hj & -> & Hf & Hlast)].
      * left. split; [reflexivity|]. intros j Hj.
        destruct (Nat.eq_dec j i) as [->|]; [assumption|apply Hall; lia].
      * right. exists j. repeat split; auto; try lia.
        intros j' Hj'. apply Hlast. lia.
    + apply IH in H. destruct H as [[-> Hall]|(j & Hj & -> & Hf & Hlast)].
      * right. exists i. repeat split; auto; try lia.
        intros j' Hj'. apply Hall. lia.
      * right. exists j. repeat split; auto; try lia.
        intros j' Hj'. apply Hlast. lia.
Qed.

(** Conversely the loop misses when no valid lane holds the tag. *)
Lemma scan_set_no_match n i inv :
  (forall j, (i <= j < i + n)%nat -> vl !!! (base + j)%nat = true ->
             tg !!! (base + j)%nat <> tag) ->
  fst (scan_set vl tg base tag n i inv) = None.
Proof.
  intros Hno. destruct (scan_set vl tg base tag n i inv) as [[k|] inv'] eqn:E;
    [|reflexivity].
  apply scan_set_hit in E. destruct E as (Hk & Hv & Ht).
  exfalso. exact (Hno k Hk Hv Ht).
Qed.
End Lanes.

Section MaxElement.
Variables (pr : list Z) (base : nat).

Lemma max_element_from_spec n i best :
  (best < i)%nat ->
  (forall j, (j < i)%nat -> pr !!! (base + j)%nat <= pr !!! (base + best)%nat) ->
  (forall j, (j < best)%nat -> pr !!! (base + j)%nat < pr !!! (base + best)%nat) ->
  let m := max_element_from pr base n i best in
  (m < i + n)%nat
  /\ (forall j, (j < i + n)%nat -> pr !!! (base + j)%nat <= pr !!! (base + m)%nat)
  /\ (forall j, (j < m)%nat -> pr !!! (base + j)%nat < pr !!! (base + m)%nat).
Proof.
  revert i best. induction n as [|n IH]; intros i best Hb Hle Hlt; simpl.
  - repeat split; [lia| |assumption]. intros j Hj. apply Hle. lia.
  - destruct (Z.ltb_spec (pr !!! (base + best)%nat) (pr !!! (base + i)%nat))
      as [Hlt'|Hge].
    + specialize (IH (S i) i). simpl in IH.
      replace (i + S n)%nat with (S i + n)%nat by lia.
      apply IH; [lia| |].
      * intros j Hj. destruct (Nat.eq_dec j i) as [->|]; [lia|].
        specialize (Hle j ltac:(lia)). lia.
      * intros j Hj. specialize (Hle j Hj). lia.
    + specialize (IH (S i) best). simpl in IH.
      replace (i + S n)%nat with (S i + n)%nat by lia.
      apply IH; [lia| |assumption].
      intros j Hj. destruct (Nat.eq_dec j i) as [->|]; [lia|].
      apply Hle. lia.
Qed.

(** On a non-empty set [max_element] is the first lane of largest
    priority. *)
Lemma max_element_spec n :
  (0 < n)%nat ->
  let m := max_element pr base n in
  (m < n)%nat
  /\ (forall j, (j < n)%nat -> pr !!! (base + j)%nat <= pr !!! (base + m)%nat)
  /\ (forall j, (j < m)%nat -> pr !!! (base + j)%nat < pr !!! (base + m)%nat).
Proof.
  intros Hn. unfold max_element.
  assert (H : (0 < 1)%nat) by lia.
  apply (max_element_from_spec (Nat.pred n) 1 0) in H.
  - replace (1 + Nat.pred n)%nat with n in H by lia. exact H.
  - intros j Hj. replace j with 0%nat by lia. lia.
  - intros; lia.
Qed.
End MaxElement.

(** ** The recency update, lane by lane *)

Section Transform.
Variables (assoc : Z) (base index : nat).

Lemma transform_priority_length n i pr :
  length (transform_priority assoc base index n i pr) = length pr.
Proof.
  revert i pr. induction n as [|n IH]; intros i pr; simpl; [reflexivity|].
  rewrite IH. apply length_insert.
Qed.

(** Slots outside the transformed lanes are not written. *)
Lemma transform_priority_outside n i pr j :
  (j < base + i \/ base + i + n <= j)%nat ->
  transform_priority assoc base index n i pr !! j = pr !! j.
Proof.
  revert i pr. induction n as [|n IH]; intros i pr Hj; simpl; [reflexivity|].
  rewrite IH by lia. apply list_lookup_insert_ne. lia.
Qed.

Lemma transform_priority_outside_total n i pr j :
  (j < base + i \/ base + i + n <= j)%nat ->
  transform_priority assoc base index n i pr !!! j = pr !!! j.
Proof.
  intros Hj. rewrite !list_lookup_total_alt.
  now rewrite transform_priority_outside.
Qed.

(** Lane [j] is compared with the touched lane's priority as it stands when
    [j] is reached: the old one up to and including lane [index], the
    rewritten one after it. *)
Lemma transform_priority_inside n i pr j :
  (base + i + n <= length pr)%nat ->
  (i <= j < i + n)%nat ->
  transform_priority assoc base index n i pr !!! (base + j)%nat =
    bump assoc
      (if decide (i <= index < j)%nat
       then bump assoc (pr !!! (base + index)%nat) (pr !!! (base + index)%nat)
       else pr !!! (base + index)%nat)
      (pr !!! (base + j)%nat).
Proof.
  revert i pr. induction n as [|n IH]; intros i pr Hlen Hj; [lia|].
  simpl. destruct (Nat.eq_dec j i) as [->|Hne].
  - rewrite transform_priority_outside_total by lia.
    rewrite list_lookup_total_insert_eq by lia.
    destruct (decide (i <= index < i)%nat); [lia|reflexivity].
  - rewrite IH by (rewrite ?length_insert; lia).
    rewrite (list_lookup_total_insert_ne pr (base + i) (base + j)) by lia.
    destruct (Nat.eq_dec index i) as [->|Hi].
    + rewrite list_lookup_total_insert_eq by lia.
      destruct (decide (S i <= i < j)%nat); [lia|].
      destruct (decide (i <= i < j)%nat); [reflexivity|lia].
    + rewrite (list_lookup_total_insert_ne pr (base + i) (base + index))
        by lia.
      destruct (decide (S i <= index < j)%nat),
               (decide (i <= index < j)%nat); try lia; reflexivity.
Qed.

Lemma update_priority_length n pr :
  length (update_priority assoc base index n pr) = length pr.
Proof.
  unfold update_priority. now rewrite length_insert, transform_priority_length.
Qed.


(** The touched lane ends at 0. *)
Lemma update_priority_touched n pr :
  (base + index < length pr)%nat ->
  update_priority assoc base index n pr !!! (base + index)%nat = 0.
Proof.
  intros Hlen. unfold update_priority.
  apply list_lookup_total_insert_eq. now rewrite transform_priority_length.
Qed.

(** Every other lane of the set. *)
Lemma update_priority_other n pr j :
  (base + n <= length pr)%nat -> (j < n)%nat -> j <> index ->
  update_priority assoc base index n pr !!! (base + j)%nat =
    bump assoc
      (if decide (index < j)%nat
       then bump assoc (pr !!! (base + index)%nat) (pr !!! (base + index)%nat)
       else pr !!! (base + index)%nat)
      (pr !!! (base + j)%nat).
Proof.
  intros Hlen Hj Hne. unfold update_priority.
  rewrite list_lookup_total_insert_ne by lia.
  rewrite transform_priority_inside by lia.
  destruct (decide (0 <= index < j)%nat), (decide (index < j)%nat);
    try lia; reflexivity.
Qed.
End Transform.

(** ** The recency update against its description *)

(** C1. "Exactly the lines whose prior priority p satisfies p <= p0 and
    p < associativity are incremented, every other line is unchanged" does not
    hold of [probe]. With block size 16, associativity 2 and capacity 64, after
    reading 0x00 and 0x40 the set holds priorities [0; 1] with 0x40 in lane 0;
    reading 0x40 again hits lane 0 (p0 = 0), and lane 1, whose priority 1 is
    above p0, is incremented to 2 = associativity, where the update as
    described leaves it at 1. With associativity 3 the same hit produces the
    tie [0; 2; 2], and the next miss evicts lane 1 (tag 1) although lane 2
    (tag 0) is the least recently used. *)
Theorem probe_priority_aliasing :
  match CacheSim_new 16 2 64 30 2 with
  | Some s0 =>
      let s2 := run s0 [(false, 0x00, 1); (false, 0x40, 1)] in
      let s3 := fst (probe s2 false 0x40) in
      snd (probe s2 false 0x40) = (true, false)
      /\ fst (scan_set (valid s2) (tags s2) (set_base s2 0x40)
                (get_tag s2 0x40) (lanes s2) 0 (-1)) = Some 0%nat
      /\ set_priorities s2 0x40 = [0; 1]
      /\ set_priorities s3 0x40 = [0; 2]
      /\ spec_update_priority (associativity s2) (set_base s2 0x40) 0
           (lanes s2) (priority s2) = [0; 1; 0; 0]
  | None => False
  end
  /\ match CacheSim_new 16 3 96 30 2 with
     | Some s0 =>
         let s3 :=
           run s0 [(false, 0x00, 1); (false, 0x20, 1); (false, 0x40, 1)] in
         let s4 := fst (probe s3 false 0x40) in
         let s5 := fst (probe s4 false 0x60) in
         set_tags s3 0 = [2; 1; 0] /\ set_priorities s3 0 = [0; 1; 2]
         /\ snd (probe s3 false 0x40) = (true, false)
         /\ set_priorities s4 0 = [0; 2; 2]
         /\ snd (probe s4 false 0x60) = (false, false)
         /\ set_tags s5 0 = [2; 3; 0]
     | None => False
     end.
Proof. vm_compute. repeat split; reflexivity. Qed.

(** ** The direct-mapped scenario *)

(** C2. Block size 16, associativity 1, capacity 16384, penalties 30 and 2:
    from the fresh cache (no valid line) the reads of 0x0, 0x1, 0x4000, 0x0
    give hit = false, true, false, false, and the run ends with 3 misses out
    of 4 accesses. *)
Theorem scenario_direct_mapped :
  match CacheSim_new 16 1 16384 30 2 with
  | Some s0 =>
      let trace := [(false, 0x0, 1); (false, 0x1, 1);
                    (false, 0x4000, 1); (false, 0x0, 1)] in
      forallb negb (valid s0) = true
      /\ map fst (outcomes s0 trace) = [false; true; false; false]
      /\ misses_ (run s0 trace) = 3
      /\ mem_accesses_ (run s0 trace) = 4
  | None => False
  end.
Proof. vm_compute. repeat split; reflexivity. Qed.

(** ** One probe *)

Lemma touched_lane_lt s address :
  (0 < lanes s)%nat -> (touched_lane s address < lanes s)%nat.
Proof.
  intros Hn. unfold touched_lane.
  destruct (scan_set _ _ _ _ _ _ _) as [[k|] inv] eqn:E.
  - apply scan_set_hit in E. lia.
  - apply scan_set_invalid in E.
    destruct E as [[-> _]|(j & Hj & -> & _)].
    + simpl. now apply max_element_spec.
    + destruct (0 <=? Z.of_nat j) eqn:E0; [|lia].
      rewrite Nat2Z.id. lia.
Qed.

(** What a probe writes, in terms of the touched lane. *)
Lemma probe_writes s type address s' out :
  probe s type address = (s', out) ->
  let slot := (set_base s address + touched_lane s address)%nat in
  priority s' = update_priority (associativity s) (set_base s address)
                  (touched_lane s address) (lanes s) (priority s)
  /\ (forall j, j <> slot ->
        tags s' !! j = tags s !! j /\ dirty s' !! j = dirty s !! j
        /\ valid s' !! j = valid s !! j)
  /\ length (tags s') = length (tags s)
  /\ length (dirty s') = length (dirty s)
  /\ length (valid s') = length (valid s)
  /\ length (priority s') = length (priority s).
Proof.
  unfold probe, touched_lane.
  destruct (scan_set _ _ _ _ _ _ _) as [[k|] inv].
  - intros H; inversion H; subst; clear H; simpl.
    rewrite update_priority_length, length_insert.
    repeat split; auto. now apply list_lookup_insert_ne.
  - destruct (0 <=? inv); intros H; inversion H; subst; clear H; simpl;
      rewrite update_priority_length, ?length_insert;
      repeat split; auto; now apply list_lookup_insert_ne.
Qed.

(** The priorities of the probed set after any probe, hit or miss: the
    touched lane is at 0; a lane stored before it was compared with [p0], the
    touched lane's priority before the probe; a lane stored after it was
    compared with what the transform had already written over [p0]. *)
Lemma probe_recency s type address s' out :
  set_in_bounds s address ->
  probe s type address = (s', out) ->
  let base := set_base s address in
  let t := touched_lane s address in
  let p0 := priority s !!! (base + t)%nat in
  (t < lanes s)%nat
  /\ priority s' !!! (base + t)%nat = 0
  /\ forall j, (j < lanes s)%nat -> j <> t ->
       priority s' !!! (base + j)%nat =
         bump (associativity s)
           (if decide (t < j)%nat then bump (associativity s) p0 p0 else p0)
           (priority s !!! (base + j)%nat).
Proof.
  intros (Hn & _ & _ & _ & Hp) H base t p0.
  pose proof (touched_lane_lt s address Hn) as Hlt. fold t in Hlt.
  destruct (probe_writes _ _ _ _ _ H) as (Hpr & _).
  fold base t in Hpr. fold base in Hp. rewrite Hpr.
  split; [exact Hlt|]. split.
  - apply update_priority_touched. lia.
  - intros j Hj Hne. now apply update_priority_other.
Qed.

Lemma probe_config s type address s' out :
  probe s type address = (s', out) ->
  block_size s' = block_size s /\ associativity s' = associativity s
  /\ capacity s' = capacity s /\ miss_penalty s' = miss_penalty s
  /\ dirty_wb_penalty s' = dirty_wb_penalty s
  /\ set_offset s' = set_offset s /\ tag_offset s' = tag_offset s
  /\ set_mask s' = set_mask s.
Proof.
  unfold probe. destruct (scan_set _ _ _ _ _ _ _) as [[k|] inv].
  - intros H; inversion H; subst; simpl. tauto.
  - destruct (0 <=? inv); intros H; inversion H; subst; simpl; tauto.
Qed.

Lemma probe_stats s type address s' out :
  probe s type address = (s', out) ->
  writes_ s' = writes_ s /\ mem_accesses_ s' = mem_accesses_ s
  /\ misses_ s' = misses_ s /\ dirty_wb_ s' = dirty_wb_ s
  /\ instructions_ s' = instructions_ s.
Proof.
  unfold probe. destruct (scan_set _ _ _ _ _ _ _) as [[k|] inv].
  - intros H; inversion H; subst; simpl. tauto.
  - destruct (0 <=? inv); intros H; inversion H; subst; simpl; tauto.
Qed.


(** C3. A probe that misses, in a set that lies inside the vectors and has
    fewer than 2^31 lanes: when the set has an invalid line the tag is
    installed in an invalid lane, which becomes valid, and no write-back is
    reported; when every line is valid the first lane of largest priority is
    refilled and the write-back flag is that lane's dirty flag before the
    probe. In both cases the lane's tag is the probed tag and its dirty flag is
    [type]. *)
Theorem probe_miss_install s type address s' wb :
  set_in_bounds s address ->
  associativity s < 2 ^ 31 ->
  probe s type address = (s', (false, wb)) ->
  let base := set_base s address in
  let tag := get_tag s address in
  ((exists i, (i < lanes s)%nat /\ valid s !!! (base + i)%nat = false) ->
   exists i, (i < lanes s)%nat
     /\ valid s !!! (base + i)%nat = false
     /\ valid s' !!! (base + i)%nat = true
     /\ tags s' !!! (base + i)%nat = tag
     /\ dirty s' !!! (base + i)%nat = type
     /\ wb = false)
  /\ ((forall i, (i < lanes s)%nat -> valid s !!! (base + i)%nat = true) ->
      exists i, (i < lanes s)%nat
        /\ (forall j, (j < lanes s)%nat ->
              priority s !!! (base + j)%nat <= priority s !!! (base + i)%nat)
        /\ (forall j, (j < i)%nat ->
              priority s !!! (base + j)%nat < priority s !!! (base + i)%nat)
        /\ wb = dirty s !!! (base + i)%nat
        /\ valid s' = valid s
        /\ tags s' !!! (base + i)%nat = tag
        /\ dirty s' !!! (base + i)%nat = type).
Proof.
  intros (Hn & Ht & Hd & Hv & Hp) _ H base tag. subst base tag.
  unfold probe in H. unfold lanes in *.
  destruct (scan_set _ _ _ _ _ _ _) as [[k|] inv] eqn:E; [discriminate|].
  apply scan_set_invalid in E.
  destruct E as [[-> Hall]|(j & Hj & -> & Hf & Hlast)].
  - simpl in H. inversion H; subst; clear H; simpl. split.
    + intros (i & Hi & Hinv). specialize (Hall i ltac:(lia)). congruence.
    + intros _.
      pose proof (max_element_spec (priority s) (set_base s address) _ Hn)
        as (Hm & Hle & Hlt).
      eexists. split; [exact Hm|].
      repeat split; auto;
        apply list_lookup_total_insert_eq; lia.
  - destruct (0 <=? Z.of_nat j) eqn:E0; [|lia].
    rewrite Nat2Z.id in H. inversion H; subst; clear H; simpl. split.
    + intros _. exists j.
      repeat split; auto; try lia;
        apply list_lookup_total_insert_eq; lia.
    + intros Hall. specialize (Hall j ltac:(lia)). congruence.
Qed.

(** ** Machine-integer facts *)

Lemma u32_small z : 0 <= z < 2 ^ 32 -> u32 z = z.
Proof. intros H. unfold u32. now apply Z.mod_small. Qed.

Lemma i32_small z : - 2 ^ 31 <= z < 2 ^ 31 -> i32 z = z.
Proof. intros H. unfold i32. rewrite Z.mod_small; lia. Qed.

Lemma i64_small z : is_i64 z -> i64 z = z.
Proof. unfold is_i64, i64. intros H. rewrite Z.mod_small; lia. Qed.

(** A mask of [k] ones has [k] bits set. *)
Lemma popcount_ones k : 0 <= k <= 32 -> popcount (2 ^ k - 1) = k.
Proof.
  intros Hk.
  assert (Hall : forallb (fun k => popcount (2 ^ k - 1) =? k)
                   (map Z.of_nat (seq 0 33)) = true)
    by (vm_compute; reflexivity).
  rewrite forallb_forall in Hall.
  apply Z.eqb_eq, Hall, in_map_iff.
  exists (Z.to_nat k). split; [lia|]. apply in_seq. lia.
Qed.

(** The bit test characterises the powers of two. *)
Lemma is_pow2_log2 x : is_pow2 x = true -> x = 2 ^ Z.log2 x.
Proof.
  unfold is_pow2. intros H. apply andb_true_iff in H. destruct H as [Hpos Hand].
  apply Z.ltb_lt in Hpos. apply Z.eqb_eq in Hand.
  destruct (Z.log2_spec x Hpos) as [Hlo Hhi].
  destruct (Z.eq_dec x (2 ^ Z.log2 x)) as [|Hne]; [assumption|exfalso].
  assert (Hlog : Z.log2 (x - 1) = Z.log2 x)
    by (apply Z.log2_unique; [apply Z.log2_nonneg|lia]).
  assert (Hp2 : 0 < 2 ^ Z.log2 x)
    by (apply Z.pow_pos_nonneg; [lia|apply Z.log2_nonneg]).
  assert (Hb1 : Z.testbit x (Z.log2 x) = true) by now apply Z.bit_log2.
  assert (Hb2 : Z.testbit (x - 1) (Z.log2 x) = true)
    by (rewrite <- Hlog; apply Z.bit_log2; lia).
  assert (Hb : Z.testbit (Z.land x (x - 1)) (Z.log2 x) = true)
    by (rewrite Z.land_spec, Hb1, Hb2; reflexivity).
  rewrite Hand, Z.bits_0 in Hb. discriminate.
Qed.

Lemma pow2_is_pow2 k : 0 <= k -> is_pow2 (2 ^ k) = true.
Proof.
  intros Hk. unfold is_pow2. apply andb_true_iff. split.
  - apply Z.ltb_lt. lia.
  - apply Z.eqb_eq. replace (2 ^ k - 1) with (Z.ones k)
      by (rewrite Z.ones_equiv; lia).
    rewrite Z.land_ones by assumption. apply Z_mod_same_full.
Qed.

(** Tag, set index and block offset are disjoint bit ranges that cover the
    address. *)
Lemma recompose_bits address b k :
  0 <= b -> 0 <= k ->
  Z.lor (Z.lor (Z.shiftl (Z.shiftr address (b + k)) (b + k))
               (Z.shiftl (Z.land (Z.shiftr address b) (2 ^ k - 1)) b))
        (Z.land address (2 ^ b - 1)) = address.
Proof.
  intros Hb Hk.
  replace (2 ^ k - 1) with (Z.ones k) by (rewrite Z.ones_equiv; lia).
  replace (2 ^ b - 1) with (Z.ones b) by (rewrite Z.ones_equiv; lia).
  apply Z.bits_inj'. intros n Hn.
  rewrite !Z.lor_spec, Z.land_spec, !Z.shiftl_spec by assumption.
  rewrite Z.testbit_ones_nonneg by assumption.
  destruct (Z.ltb_spec n b) as [Hlt|Hge].
  - rewrite (Z.testbit_neg_r _ (n - (b + k))) by lia.
    rewrite (Z.testbit_neg_r _ (n - b)) by lia.
    simpl. now rewrite andb_true_r.
  - rewrite andb_false_r, orb_false_r.
    rewrite Z.land_spec, (Z.shiftr_spec address b (n - b)) by lia.
    rewrite Z.testbit_ones_nonneg by lia.
    replace (n - b + b) with n by lia.
    destruct (Z.ltb_spec (n - b) k) as [Hlt|Hge'].
    + rewrite (Z.testbit_neg_r _ (n - (b + k))) by lia.
      simpl. now rewrite andb_true_r.
    + rewrite andb_false_r, orb_false_r.
      rewrite Z.shiftr_spec by lia. f_equal. lia.
Qed.

(** ** The constructor on a power-of-two geometry *)

Lemma CacheSim_new_fields bs a c mp wbp s :
  CacheSim_new bs a c mp wbp = Some s ->
  bs <> 0 /\ u32 (bs * a) <> 0
  /\ block_size s = bs /\ associativity s = a /\ capacity s = c
  /\ miss_penalty s = mp /\ dirty_wb_penalty s = wbp
  /\ set_offset s = popcount (u32 (bs - 1))
  /\ set_mask s = u32 (sets_of bs a c - 1)
  /\ tag_offset s = popcount (u32 (bs - 1)) + popcount (u32 (sets_of bs a c - 1))
  /\ tags s = replicate (Z.to_nat (c / bs)) 0
  /\ dirty s = replicate (Z.to_nat (c / bs)) false
  /\ valid s = replicate (Z.to_nat (c / bs)) false
  /\ priority s = replicate (Z.to_nat (c / bs)) 0
  /\ (writes_ s = 0 /\ mem_accesses_ s = 0 /\ misses_ s = 0
      /\ dirty_wb_ s = 0 /\ instructions_ s = 0).
Proof.
  unfold CacheSim_new.
  destruct (bs =? 0) eqn:E1; [discriminate|].
  destruct (u32 (bs * a) =? 0) eqn:E2; [discriminate|].
  apply Z.eqb_neq in E1, E2. simpl.
  intros H; inversion H; subst; clear H; simpl. tauto.
Qed.

(** The geometry the constructor derives when the block size and the set
    count are powers of two. *)
Lemma pow2_geometry bs a c mp wbp s :
  is_u32 bs -> is_u32 a -> is_u32 c ->
  CacheSim_new bs a c mp wbp = Some s ->
  is_pow2 bs = true -> is_pow2 (sets_of bs a c) = true ->
  let b := Z.log2 bs in
  let k := Z.log2 (sets_of bs a c) in
  0 <= b < 32 /\ 0 <= k < 32
  /\ bs = 2 ^ b /\ sets_of bs a c = 2 ^ k
  /\ set_offset s = b /\ tag_offset s = b + k /\ set_mask s = 2 ^ k - 1.
Proof.
  intros Hbs Ha Hc Hnew Hpb Hps b k.
  apply CacheSim_new_fields in Hnew.
  destruct Hnew as (Hbs0 & Hprod & _ & _ & _ & _ & _ & Hso & Hsm & Hto & _).
  pose proof (is_pow2_log2 _ Hpb) as Eb. pose proof (is_pow2_log2 _ Hps) as Ek.
  fold b in Eb. fold k in Ek.
  assert (Hb0 : 0 <= b) by apply Z.log2_nonneg.
  assert (Hk0 : 0 <= k) by apply Z.log2_nonneg.
  assert (Hb32 : b < 32).
  { apply (Z.pow_lt_mono_r_iff 2); [lia|lia|]. unfold is_u32 in Hbs. lia. }
  assert (Hsets : sets_of bs a c <= c).
  { unfold sets_of. unfold is_u32 in Hc.
    assert (0 < u32 (bs * a)) by (unfold u32 in *; pose proof (Z.mod_pos_bound (bs * a) (2 ^ 32)); lia).
    apply Z.div_le_upper_bound; [lia|]. nia. }
  assert (Hk32 : k < 32).
  { apply (Z.pow_lt_mono_r_iff 2); [lia|lia|]. unfold is_u32 in Hc. lia. }
  assert (Hpb' : 2 ^ b <= 2 ^ 31) by (apply Z.pow_le_mono_r; lia).
  assert (Hpk' : 2 ^ k <= 2 ^ 31) by (apply Z.pow_le_mono_r; lia).
  assert (Hpb0 : 0 < 2 ^ b) by lia. assert (Hpk0 : 0 < 2 ^ k) by lia.
  assert (E1 : u32 (bs - 1) = 2 ^ b - 1) by (rewrite u32_small; lia).
  assert (E2 : u32 (sets_of bs a c - 1) = 2 ^ k - 1)
    by (rewrite u32_small; lia).
  rewrite E1, E2, !popcount_ones in Hto by lia.
  rewrite E1, popcount_ones in Hso by lia. rewrite E2 in Hsm.
  repeat split; auto; lia.
Qed.

(** On such a geometry [get_set] is the masked shift, a set index below the
    set count. *)
Lemma get_set_pow2 bs a c mp wbp s address :
  is_u32 bs -> is_u32 a -> is_u32 c ->
  CacheSim_new bs a c mp wbp = Some s ->
  is_pow2 bs = true -> is_pow2 (sets_of bs a c) = true ->
  get_set s address =
    Z.land (Z.shiftr address (Z.log2 bs)) (sets_of bs a c - 1)
  /\ 0 <= get_set s address < sets_of bs a c.
Proof.
  intros Hbs Ha Hc Hnew Hpb Hps.
  pose proof (pow2_geometry _ _ _ _ _ _ Hbs Ha Hc Hnew Hpb Hps) as Hgeo.
  cbv zeta in Hgeo.
  set (b := Z.log2 bs) in *. set (k := Z.log2 (sets_of bs a c)) in *.
  destruct Hgeo as (Hb & Hk & Eb & Ek & Hso & Hto & Hsm).
  unfold get_set. rewrite Hso, Hsm, Ek.
  replace (2 ^ k - 1) with (Z.ones k) by (rewrite Z.ones_equiv; lia).
  rewrite Z.land_ones by lia.
  pose proof (Z.mod_pos_bound (Z.shiftr address b) (2 ^ k) ltac:(lia)).
  assert (2 ^ k <= 2 ^ 31) by (apply Z.pow_le_mono_r; lia).
  rewrite i32_small by lia. split; [reflexivity|lia].
Qed.

(** C4. For a configuration whose block size and set count are powers of two
    and any 64-bit address, [get_set] is
    [(address >> offset_bits) & (set_count - 1)], [get_tag] is
    [address >> (offset_bits + set_bits)], and tag, set index and block offset
    put back in place give the address. *)
Theorem decoder_recompose bs a c mp wbp s address :
  is_u32 bs -> is_u32 a -> is_u32 c ->
  CacheSim_new bs a c mp wbp = Some s ->
  is_pow2 bs = true -> is_pow2 (sets_of bs a c) = true ->
  is_u64 address ->
  let offset_bits := Z.log2 bs in
  let set_count := sets_of bs a c in
  let set_bits := Z.log2 set_count in
  get_set s address = Z.land (Z.shiftr address offset_bits) (set_count - 1)
  /\ get_tag s address = Z.shiftr address (offset_bits + set_bits)
  /\ Z.lor (Z.lor (Z.shiftl (get_tag s address) (offset_bits + set_bits))
                  (Z.shiftl (get_set s address) offset_bits))
           (Z.land address (bs - 1)) = address.
Proof.
  intros Hbs Ha Hc Hnew Hpb Hps Haddr offset_bits set_count set_bits.
  pose proof (pow2_geometry _ _ _ _ _ _ Hbs Ha Hc Hnew Hpb Hps) as Hgeo.
  destruct (get_set_pow2 _ _ _ _ _ _ address Hbs Ha Hc Hnew Hpb Hps)
    as [Hset _].
  cbv zeta in Hgeo. subst set_bits set_count offset_bits.
  set (offset_bits := Z.log2 bs) in *.
  set (set_bits := Z.log2 (sets_of bs a c)) in *.
  destruct Hgeo as (Hb & Hk & Eb & Ek & Hso & Hto & Hsm).
  assert (Htag : get_tag s address =
                 Z.shiftr address (offset_bits + set_bits))
    by (unfold get_tag; now rewrite Hto).
  split; [exact Hset|]. split; [exact Htag|].
  rewrite Hset, Htag, Ek.
  replace (bs - 1) with (2 ^ offset_bits - 1) by lia.
  apply recompose_bits; lia.
Qed.

(** ** Statistics and report *)

Lemma step_eq s type address instructions :
  step s (type, address, instructions) =
    (update_stats (fst (probe s type address)) instructions type
       (fst (snd (probe s type address))) (snd (snd (probe s type address))),
     snd (probe s type address)).
Proof.
  unfold step. destruct (probe s type address) as [s' [hit wb]]. reflexivity.
Qed.

Lemma run_app s trace1 trace2 :
  run s (trace1 ++ trace2) = run (run s trace1) trace2.
Proof. unfold run. apply fold_left_app. Qed.

Lemma run_snoc s trace a : run s (trace ++ [a]) = fst (step (run s trace) a).
Proof. rewrite run_app. reflexivity. Qed.

(** C6. One processed access [(type, address, instructions)], with [hit] and
    [dirty_wb] the outcome of its probe: the access count grows by 1, the
    write count by 1 for a write, the miss count by 1 for a miss, the
    instruction count by [instructions] (no counter leaving the range of
    [std::int64_t]), and [dirty_wb_] is assigned the probe's write-back flag.
    So after a run [dirty_wb_] is the flag of the last access alone. *)
Theorem update_stats_exact s type address instructions :
  is_i64 (mem_accesses_ s + 1) ->
  is_i64 (writes_ s + 1) ->
  is_i64 (misses_ s + 1) ->
  is_i64 (instructions_ s + instructions) ->
  is_i64 (writes_ s) -> is_i64 (misses_ s) ->
  let hit := fst (snd (probe s type address)) in
  let dirty_wb := snd (snd (probe s type address)) in
  let s' := fst (step s (type, address, instructions)) in
  mem_accesses_ s' = mem_accesses_ s + 1
  /\ writes_ s' = writes_ s + (if type then 1 else 0)
  /\ misses_ s' = misses_ s + (if hit then 0 else 1)
  /\ instructions_ s' = instructions_ s + instructions
  /\ dirty_wb_ s' = (if dirty_wb then 1 else 0)
  /\ forall s0 trace,
       dirty_wb_ (run s0 (trace ++ [(type, address, instructions)])) =
         if snd (snd (probe (run s0 trace) type address)) then 1 else 0.
Proof.
  intros Hm Hw Hmi Hi Hw0 Hmi0 hit dirty_wb s'. subst s' hit dirty_wb.
  rewrite step_eq.
  destruct (probe s type address) as [s1 [hit wb]] eqn:E.
  destruct (probe_stats _ _ _ _ _ E) as (Ew & Ea & Em & _ & Ei). simpl.
  rewrite Ew, Ea, Em, Ei. repeat split.
  - now apply i64_small.
  - destruct type; simpl; apply i64_small;
      [assumption|now rewrite Z.add_0_r].
  - destruct hit; simpl; apply i64_small;
      [now rewrite Z.add_0_r|assumption].
  - now apply i64_small.
  - intros s0 trace. rewrite run_snoc, step_eq. simpl.
    now destruct (snd (snd (probe (run s0 trace) type address))).
Qed.

Lemma dump_stats_miss_rate s :
  r_miss_rate (dump_stats s) =
    PrimFloat.mul
      (PrimFloat.div (to_double (misses_ s)) (to_double (mem_accesses_ s)))
      (to_double 100).
Proof. reflexivity. Qed.

Lemma dump_stats_ipc s :
  r_ipc (dump_stats s) =
    PrimFloat.div (to_double (instructions_ s)) (to_double (cycles_of s)).
Proof. reflexivity. Qed.

Lemma dump_stats_cycles s : r_cycles (dump_stats s) = cycles_of s.
Proof. reflexivity. Qed.

Lemma dump_stats_hits s :
  r_hits (dump_stats s) = i64 (mem_accesses_ s - misses_ s).
Proof. reflexivity. Qed.

(** C7. The report: [cycles] is miss penalty times misses, plus write-back
    penalty times the last write-back flag, plus the instructions; [hits] is
    accesses minus misses; [ipc] is the quotient of instructions by cycles as
    doubles (no intermediate value leaving the range of [std::int64_t]). With
    3 misses, the flag clear, 4 instructions and miss penalty 30, [cycles] is
    94 and [ipc] is 4/94. *)
Theorem dump_stats_arith s :
  is_i64 (miss_penalty s * misses_ s) ->
  is_i64 (dirty_wb_penalty s * dirty_wb_ s) ->
  is_i64 (miss_penalty s * misses_ s + dirty_wb_penalty s * dirty_wb_ s) ->
  is_i64 (miss_penalty s * misses_ s + dirty_wb_penalty s * dirty_wb_ s
          + instructions_ s) ->
  is_i64 (mem_accesses_ s - misses_ s) ->
  let r := dump_stats s in
  r_cycles r = miss_penalty s * misses_ s + dirty_wb_penalty s * dirty_wb_ s
               + instructions_ s
  /\ r_hits r = mem_accesses_ s - misses_ s
  /\ r_ipc r = PrimFloat.div (to_double (instructions_ s))
                             (to_double (r_cycles r))
  /\ (misses_ s = 3 -> dirty_wb_ s = 0 -> instructions_ s = 4 ->
      miss_penalty s = 30 ->
      r_cycles r = 94 /\ r_ipc r = PrimFloat.div 4%float 94%float).
Proof.
  intros H1 H2 H3 H4 H5 r. subst r.
  assert (Hc : cycles_of s =
               miss_penalty s * misses_ s + dirty_wb_penalty s * dirty_wb_ s
               + instructions_ s).
  { unfold cycles_of.
    rewrite (i64_small (miss_penalty s * misses_ s)) by assumption.
    rewrite (i64_small (dirty_wb_penalty s * dirty_wb_ s)) by assumption.
    rewrite (i64_small (_ + _ * _)) by assumption.
    now apply i64_small. }
  rewrite dump_stats_cycles, dump_stats_hits, dump_stats_ipc.
  split; [exact Hc|]. split; [now apply i64_small|]. split; [reflexivity|].
  intros Hm Hd Hi Hp. rewrite Hc, Hm, Hd, Hi, Hp, Z.mul_0_r.
  split; [reflexivity|]. vm_compute. reflexivity.
Qed.

(** C8, as stated, fails: block size 24 is not a power of two, nor is the
    resulting set count 682, and the constructor returns a simulator. *)
Lemma construct_not_pow2_succeeds :
  ~ (forall bs a c mp wbp,
        is_u32 bs -> is_u32 a -> is_u32 c ->
        is_pow2 bs && is_pow2 (sets_of bs a c) = false ->
        CacheSim_new bs a c mp wbp = None).
Proof.
  intros H. specialize (H 24 1 16384 30 2).
  assert (Hnone : CacheSim_new 24 1 16384 30 2 = None).
  { apply H; unfold is_u32; try lia. vm_compute. reflexivity. }
  vm_compute in Hnone. discriminate.
Qed.

(** C8, amended. The constructor validates nothing: whenever its two
    divisions are defined (block size and the unsigned product of block size
    and associativity both non-zero) it returns a simulator, power-of-two
    geometry or not, whose decoding constants are the popcounts and mask
    computed from the arguments and whose [num_blocks] lines are all
    invalid. *)
Theorem construct_unchecked bs a c mp wbp :
  bs <> 0 -> u32 (bs * a) <> 0 ->
  exists s,
    CacheSim_new bs a c mp wbp = Some s
    /\ set_offset s = popcount (u32 (bs - 1))
    /\ set_mask s = u32 (c / u32 (bs * a) - 1)
    /\ tag_offset s = set_offset s + popcount (set_mask s)
    /\ length (valid s) = Z.to_nat (c / bs)
    /\ forall j, (j < length (valid s))%nat -> valid s !!! j = false.
Proof.
  intros Hbs Hprod. unfold CacheSim_new.
  apply Z.eqb_neq in Hbs, Hprod. rewrite Hbs, Hprod. simpl.
  eexists. split; [reflexivity|]. simpl.
  rewrite length_replicate. repeat split; try reflexivity.
  intros j Hj. now apply lookup_total_replicate_2.
Qed.

(** C9, as stated, fails: on the configuration of [main] with an empty trace
    the report has no accesses and no cycles, both divisions are carried out,
    and [miss_rate] and [ipc] are NaN. *)
Lemma report_empty_run_nan :
  match main_sim with
  | Some s0 =>
      let r := dump_stats (run s0 []) in
      r_total_accesses r = 0 /\ r_cycles r = 0
      /\ PrimFloat.is_nan (r_miss_rate r) = true
      /\ PrimFloat.is_nan (r_ipc r) = true
  | None => False
  end.
Proof. vm_compute. repeat split; reflexivity. Qed.

(** A double divided by the double of 0 is NaN or an infinity, whatever the
    dividend; so is a hundred times such a quotient. *)
Lemma div_zero_not_finite x :
  not_finite (PrimFloat.div x (to_double 0)) = true.
Proof.
  unfold not_finite, PrimFloat.is_nan, PrimFloat.is_infinity.
  rewrite !FloatAxioms.eqb_spec, FloatAxioms.abs_spec, FloatAxioms.div_spec.
  replace (Prim2SF (to_double 0)) with (S754_zero false)
    by (vm_compute; reflexivity).
  replace (Prim2SF infinity) with (S754_infinity false)
    by (vm_compute; reflexivity).
  destruct (Prim2SF x) as [[|]|[|]| |[|] m e]; reflexivity.
Qed.

Lemma div_zero_times_100_not_finite x :
  not_finite (PrimFloat.mul (PrimFloat.div x (to_double 0)) (to_double 100))
  = true.
Proof.
  unfold not_finite, PrimFloat.is_nan, PrimFloat.is_infinity.
  rewrite !FloatAxioms.eqb_spec, FloatAxioms.abs_spec, FloatAxioms.mul_spec,
    FloatAxioms.div_spec.
  replace (Prim2SF (to_double 0)) with (S754_zero false)
    by (vm_compute; reflexivity).
  replace (Prim2SF infinity) with (S754_infinity false)
    by (vm_compute; reflexivity).
  replace (Prim2SF (to_double 100))
    with (S754_finite false 7036874417766400 (-46))
    by (vm_compute; reflexivity).
  destruct (Prim2SF x) as [[|]|[|]| |[|] m e]; reflexivity.
Qed.

(** C9, amended. When the session ends with no access or with [cycles] equal
    to 0, the report signals nothing and carries out its divisions unguarded.
    With no access [miss_rate] is NaN or an infinity, NaN when there is no
    miss either; with [cycles] 0, [ipc] is NaN or an infinity, NaN when there
    is no instruction either. After a run without any access (misses,
    instructions and write-back flag all 0) [cycles] is 0, so both are
    NaN. *)
Theorem report_divides_unguarded s :
  mem_accesses_ s = 0 \/ r_cycles (dump_stats s) = 0 ->
  let r := dump_stats s in
  (mem_accesses_ s = 0 ->
     not_finite (r_miss_rate r) = true
     /\ (misses_ s = 0 -> PrimFloat.is_nan (r_miss_rate r) = true))
  /\ (r_cycles r = 0 ->
      not_finite (r_ipc r) = true
      /\ (instructions_ s = 0 -> PrimFloat.is_nan (r_ipc r) = true))
  /\ (misses_ s = 0 -> instructions_ s = 0 -> dirty_wb_ s = 0 ->
      r_cycles r = 0).
Proof.
  intros _ r. subst r.
  rewrite dump_stats_cycles, dump_stats_miss_rate, dump_stats_ipc.
  split; [|split].
  - intros Ha. rewrite Ha. split; [apply div_zero_times_100_not_finite|].
    intros Hm. rewrite Hm. vm_compute. reflexivity.
  - intros Hc. rewrite Hc. split; [apply div_zero_not_finite|].
    intros Hi. rewrite Hi. vm_compute. reflexivity.
  - intros Hm Hi Hd. unfold cycles_of.
    rewrite Hm, Hd, Hi, !Z.mul_0_r. reflexivity.
Qed.

(** ** Filling a set and the first eviction *)

Lemma bump_incr assoc pidx p :
  assoc < 2 ^ 31 -> 0 <= p -> p <= pidx -> p < assoc ->
  bump assoc pidx p = p + 1.
Proof.
  intros Ha H0 Hle Hlt. unfold bump.
  rewrite u32_small by lia.
  destruct (Z.leb_spec p pidx); [|lia].
  destruct (Z.ltb_spec p assoc); [|lia].
  simpl. apply i32_small. lia.
Qed.

(** The probe written out when the lookup misses and saw an invalid lane. *)
Lemma probe_miss_invalid s type address j :
  scan_set (valid s) (tags s) (set_base s address) (get_tag s address)
    (lanes s) 0 (-1) = (None, Z.of_nat j) ->
  let slot := (set_base s address + j)%nat in
  probe s type address =
    (mkCacheSim (block_size s) (associativity s) (capacity s)
       (miss_penalty s) (dirty_wb_penalty s)
       (set_offset s) (tag_offset s) (set_mask s)
       (<[slot := get_tag s address]> (tags s))
       (<[slot := type]> (dirty s))
       (<[slot := true]> (valid s))
       (update_priority (associativity s) (set_base s address) j (lanes s)
          (priority s))
       (writes_ s) (mem_accesses_ s) (misses_ s) (dirty_wb_ s)
       (instructions_ s),
     (false, false)).
Proof.
  intros E slot. unfold probe. rewrite E.
  destruct (Z.leb_spec 0 (Z.of_nat j)); [|lia].
  now rewrite Nat2Z.id.
Qed.

(** The probe written out when the lookup misses and every lane is valid. *)
Lemma probe_miss_evict s type address :
  scan_set (valid s) (tags s) (set_base s address) (get_tag s address)
    (lanes s) 0 (-1) = (None, -1) ->
  let index := max_element (priority s) (set_base s address) (lanes s) in
  let slot := (set_base s address + index)%nat in
  probe s type address =
    (mkCacheSim (block_size s) (associativity s) (capacity s)
       (miss_penalty s) (dirty_wb_penalty s)
       (set_offset s) (tag_offset s) (set_mask s)
       (<[slot := get_tag s address]> (tags s))
       (<[slot := type]> (dirty s))
       (valid s)
       (update_priority (associativity s) (set_base s address) index (lanes s)
          (priority s))
       (writes_ s) (mem_accesses_ s) (misses_ s) (dirty_wb_ s)
       (instructions_ s),
     (false, dirty s !!! slot)).
Proof. intros E index slot. unfold probe. rewrite E. reflexivity. Qed.

(** A tag that is not among the filled ones misses. *)
Lemma filled_set_scan_miss s base filled tag :
  filled_set s base filled -> tag ∉ filled ->
  fst (scan_set (valid s) (tags s) base tag (lanes s) 0 (-1)) = None.
Proof.
  intros Hfs Hnew. apply scan_set_no_match. intros j Hj Hv Ht.
  destruct (Nat.lt_ge_cases j (lanes s - length filled)%nat) as [Hc|Hw].
  - apply (fs_cold _ _ _ Hfs) in Hc. destruct Hc as [Hc _]. congruence.
  - destruct (fs_warm _ _ _ Hfs j ltac:(lia)) as (_ & Htag & _).
    apply Hnew. rewrite <- Ht, Htag.
    apply list_elem_of_lookup_total_2. lia.
Qed.

(** Installing a new tag into a set that still has an invalid lane. *)
Lemma probe_fill s type address filled :
  0 < associativity s < 2 ^ 31 ->
  filled_set s (set_base s address) filled ->
  (length filled < lanes s)%nat ->
  get_tag s address ∉ filled ->
  exists s',
    probe s type address = (s', (false, false))
    /\ filled_set s' (set_base s address) (filled ++ [get_tag s address]).
Proof.
  intros Ha Hfs Hk Hnew.
  set (base := set_base s address) in *. set (tag := get_tag s address) in *.
  set (k := length filled) in *.
  pose proof (filled_set_scan_miss _ _ _ _ Hfs Hnew) as Hmiss.
  destruct (scan_set (valid s) (tags s) base tag (lanes s) 0 (-1))
    as [found inv] eqn:E.
  simpl in Hmiss. subst found.
  assert (Hinv : inv = Z.of_nat (lanes s - k - 1)).
  { apply scan_set_invalid in E.
    destruct E as [[_ Hall]|(j & Hj & -> & Hf & Hlast)].
    - destruct (fs_cold _ _ _ Hfs 0%nat ltac:(lia)) as [Hc _].
      rewrite Hall in Hc by lia. discriminate.
    - f_equal.
      destruct (Nat.lt_ge_cases j (lanes s - k)%nat) as [Hc|Hw].
      + destruct (Nat.eq_dec j (lanes s - k - 1)%nat) as [|Hne]; [assumption|].
        destruct (fs_cold _ _ _ Hfs (lanes s - k - 1)%nat ltac:(lia))
          as [Hc' _].
        rewrite Hlast in Hc' by lia. discriminate.
      + destruct (fs_warm _ _ _ Hfs j ltac:(lia)) as (Hv & _). congruence. }
  subst inv. eexists. split; [exact (probe_miss_invalid s type address _ E)|].
  fold base tag.
  destruct Hfs as [Hcount Hlt Hld Hlv Hlp Hcold Hwarm].
  assert (Hlanes : Z.of_nat (lanes s) = associativity s)
    by (unfold lanes; lia).
  match goal with
  | |- filled_set ?s' _ _ => assert (Hl : lanes s' = lanes s) by reflexivity
  end.
  split; rewrite ?Hl; simpl;
    rewrite ?length_insert, ?update_priority_length, ?length_app; simpl;
    fold k; try lia.
  - (* lanes still invalid *)
    intros i Hi.
    destruct (Hcold i ltac:(lia)) as (Hv & Hp).
    destruct (Hcold (lanes s - k - 1)%nat ltac:(lia)) as (_ & Hp0).
    rewrite list_lookup_total_insert_ne by lia. split; [assumption|].
    rewrite update_priority_other by lia.
    destruct (decide (lanes s - k - 1 < i)%nat); [lia|].
    rewrite Hp, Hp0. rewrite bump_incr by lia. lia.
  - (* the filled lane and the older ones *)
    intros i Hi.
    destruct (Hcold (lanes s - k - 1)%nat ltac:(lia)) as (_ & Hp0).
    destruct (Nat.eq_dec i (lanes s - k - 1)%nat) as [->|Hne].
    + rewrite !list_lookup_total_insert_eq by lia.
      rewrite update_priority_touched by lia.
      repeat split; [|lia].
      replace (lanes s - 1 - (lanes s - k - 1))%nat with (k + 0)%nat by lia.
      unfold k. now rewrite lookup_total_app_r, Nat.add_0_r, Nat.sub_diag by lia.
    + destruct (Hwarm i ltac:(lia)) as (Hv & Ht & Hp).
      rewrite !list_lookup_total_insert_ne by lia.
      split; [assumption|]. split.
      * rewrite Ht. fold k. symmetry. apply lookup_total_app_l. fold k. lia.
      * rewrite update_priority_other by lia.
        destruct (decide (lanes s - k - 1 < i)%nat); [|lia].
        rewrite Hp, Hp0. rewrite (bump_incr _ _ (Z.of_nat k)) by lia.
        rewrite bump_incr by lia. lia.
Qed.

Lemma same_geometry_decode s s0 address :
  same_geometry s s0 ->
  get_tag s address = get_tag s0 address
  /\ set_base s address = set_base s0 address
  /\ lanes s = lanes s0.
Proof.
  intros (Ha & Hso & Hto & Hsm).
  unfold get_tag, set_base, get_set, lanes. now rewrite Ha, Hso, Hto, Hsm.
Qed.

Lemma resident_spec s address :
  resident s address = true <->
  exists i, (i < lanes s)%nat
    /\ valid s !!! (set_base s address + i)%nat = true
    /\ tags s !!! (set_base s address + i)%nat = get_tag s address.
Proof.
  unfold resident. rewrite existsb_exists. split.
  - intros (i & Hi & H). apply in_seq in Hi. apply andb_true_iff in H.
    destruct H as [Hv Ht]. apply Z.eqb_eq in Ht. exists i.
    repeat split; auto; lia.
  - intros (i & Hi & Hv & Ht). exists i. split; [apply in_seq; lia|].
    apply andb_true_iff. split; [assumption|now apply Z.eqb_eq].
Qed.

(** The first eviction: the set is full of [filled], oldest in the last lane,
    and a new tag replaces exactly that lane. *)
Lemma probe_evict_oldest s type address filled :
  0 < associativity s < 2 ^ 31 ->
  filled_set s (set_base s address) filled ->
  length filled = lanes s ->
  get_tag s address ∉ filled ->
  exists s',
    probe s type address =
      (s', (false, dirty s !!! (set_base s address + (lanes s - 1))%nat))
    /\ valid s' = valid s
    /\ tags s' = <[(set_base s address + (lanes s - 1))%nat := get_tag s address]>
                   (tags s).
Proof.
  intros Ha Hfs Hk Hnew.
  set (base := set_base s address) in *. set (tag := get_tag s address) in *.
  pose proof (filled_set_scan_miss _ _ _ _ Hfs Hnew) as Hmiss.
  destruct (scan_set (valid s) (tags s) base tag (lanes s) 0 (-1))
    as [found inv] eqn:E.
  simpl in Hmiss. subst found.
  assert (Hn : (0 < lanes s)%nat) by (unfold lanes; lia).
  assert (Hinv : inv = -1).
  { apply scan_set_invalid in E.
    destruct E as [[-> _]|(j & Hj & -> & Hf & _)]; [reflexivity|].
    destruct (fs_warm _ _ _ Hfs j ltac:(lia)) as (Hv & _). congruence. }
  subst inv.
  assert (Hmax : max_element (priority s) base (lanes s) = (lanes s - 1)%nat).
  { pose proof (max_element_spec (priority s) base (lanes s) Hn)
      as (Hm & Hle & _).
    specialize (Hle (lanes s - 1)%nat ltac:(lia)).
    destruct (fs_warm _ _ _ Hfs (lanes s - 1)%nat ltac:(lia)) as (_ & _ & Hp1).
    destruct (fs_warm _ _ _ Hfs _ ltac:(split; [|exact Hm]; lia))
      as (_ & _ & Hp2).
    rewrite Hp1, Hp2 in Hle. lia. }
  eexists. split.
  - rewrite (probe_miss_evict s type address E). fold base.
    rewrite Hmax. reflexivity.
  - simpl. split; reflexivity.
Qed.

Lemma filled_set_update_stats s base filled instructions type hit dirty_wb :
  filled_set s base filled ->
  filled_set (update_stats s instructions type hit dirty_wb) base filled.
Proof. intros [H1 H2 H3 H4 H5 H6 H7]. split; assumption. Qed.

Lemma same_geometry_step s s0 a :
  same_geometry s s0 -> same_geometry (fst (step s a)) s0.
Proof.
  intros (Ha & Hso & Hto & Hsm). destruct a as [[type address] instructions].
  rewrite step_eq. simpl.
  destruct (probe s type address) as [s' out] eqn:E.
  destruct (probe_config _ _ _ _ _ E) as (_ & Ha' & _ & _ & _ & Hso' & Hto' & Hsm').
  unfold same_geometry. simpl. rewrite Ha', Hso', Hto', Hsm'. tauto.
Qed.

Lemma run_cons s a trace : run s (a :: trace) = run (fst (step s a)) trace.
Proof. reflexivity. Qed.

Lemma outcomes_cons s a trace :
  outcomes s (a :: trace) = snd (step s a) :: outcomes (fst (step s a)) trace.
Proof. reflexivity. Qed.

Lemma outcomes_app s trace1 trace2 :
  outcomes s (trace1 ++ trace2) =
    outcomes s trace1 ++ outcomes (run s trace1) trace2.
Proof.
  revert s. induction trace1 as [|a trace1 IH]; intros s; [reflexivity|].
  simpl. now rewrite IH.
Qed.

(** Filling a set with new tags, one probe each: every probe is a cold miss
    and the set ends up holding the tags in fill order. *)
Lemma run_fills s0 base trace : forall s filled,
  0 < associativity s0 < 2 ^ 31 ->
  same_geometry s s0 ->
  filled_set s base filled ->
  (length filled + length trace <= lanes s0)%nat ->
  (forall x, x ∈ trace -> set_base s0 (addr_of x) = base) ->
  NoDup (filled ++ map (fun x => get_tag s0 (addr_of x)) trace) ->
  same_geometry (run s trace) s0
  /\ filled_set (run s trace) base
       (filled ++ map (fun x => get_tag s0 (addr_of x)) trace)
  /\ Forall (fun o => o = (false, false)) (outcomes s trace).
Proof.
  induction trace as [|x trace IH]; intros s filled Ha Hgeo Hfs Hlen Hset Hnd.
  - simpl. rewrite app_nil_r. auto.
  - destruct (same_geometry_decode s s0 (addr_of x) Hgeo) as (Etag & Ebase & El).
    assert (Hb : set_base s (addr_of x) = base)
      by (rewrite Ebase; apply Hset; left).
    assert (Hnew : get_tag s (addr_of x) ∉ filled).
    { rewrite Etag. simpl in Hnd. apply NoDup_app in Hnd.
      destruct Hnd as (_ & Hdisj & _). intros Hin.
      apply (Hdisj _ Hin). left. }
    assert (Ha' : 0 < associativity s < 2 ^ 31)
      by (destruct Hgeo as (-> & _); exact Ha).
    simpl in Hlen.
    destruct x as [[type address] instructions]. unfold addr_of in *.
    simpl in Etag, Ebase, Hb, Hnew.
    rewrite <- Hb in Hfs.
    destruct (probe_fill s type address filled Ha' Hfs ltac:(lia) Hnew)
      as (s' & Hprobe & Hfs').
    pose proof (same_geometry_step s s0 (type, address, instructions) Hgeo)
      as Hgeo'.
    assert (Hstep : step s (type, address, instructions) =
                    (update_stats s' instructions type false false,
                     (false, false)))
      by (rewrite step_eq, Hprobe; reflexivity).
    rewrite Hstep in Hgeo'. simpl in Hgeo'.
    rewrite Hb, Etag in Hfs'.
    apply (filled_set_update_stats _ _ _ instructions type false false)
      in Hfs'.
    specialize (IH _ _ Ha Hgeo' Hfs').
    rewrite length_app in IH. simpl in IH.
    rewrite <- app_assoc in IH. simpl in IH.
    destruct IH as (IH1 & IH2 & IH3); [lia| |exact Hnd|].
    + intros y Hy. apply Hset. now right.
    + rewrite run_cons, outcomes_cons, Hstep.
      split; [exact IH1|]. split; [exact IH2|].
      constructor; [reflexivity|exact IH3].
Qed.

Lemma valid_config_facts bs a c :
  valid_config bs a c = true ->
  is_u32 bs /\ is_u32 a /\ is_u32 c /\ 0 < bs /\ 0 < a < 2 ^ 31
  /\ bs * a < 2 ^ 32
  /\ is_pow2 bs = true /\ is_pow2 (sets_of bs a c) = true.
Proof.
  unfold valid_config, is_u32. rewrite !andb_true_iff.
  rewrite !Z.ltb_lt, Z.leb_le. intros H. repeat split; try tauto; try lia; nia.
Qed.

(** With the product of block size and associativity exact, the sets fit the
    vectors. *)
Lemma sets_fit bs a c :
  0 < bs -> 0 < a -> 0 <= c -> bs * a < 2 ^ 32 ->
  sets_of bs a c * a <= c / bs.
Proof.
  intros Hbs Ha Hc Hprod. unfold sets_of.
  rewrite u32_small by nia.
  rewrite <- Z.div_div by lia.
  pose proof (Z.mul_div_le (c / bs) a Ha). lia.
Qed.

(** The freshly constructed cache: every set is a filled set with nothing
    filled. *)
Lemma fresh_filled_set bs a c mp wbp s0 address :
  valid_config bs a c = true ->
  CacheSim_new bs a c mp wbp = Some s0 ->
  filled_set s0 (set_base s0 address) [].
Proof.
  intros Hcfg Hnew.
  destruct (valid_config_facts _ _ _ Hcfg)
    as (Hbs & Ha & Hc & Hbs0 & Ha0 & Hprod & Hpb & Hps).
  destruct (get_set_pow2 _ _ _ _ _ _ address Hbs Ha Hc Hnew Hpb Hps)
    as [_ Hset].
  pose proof (sets_fit bs a c Hbs0 ltac:(lia) ltac:(unfold is_u32 in Hc; lia)
                Hprod) as Hfit.
  assert (Hdiv : 0 <= c / bs < 2 ^ 32).
  { unfold is_u32 in Hc. split; [apply Z.div_pos; lia|].
    apply Z.div_lt_upper_bound; nia. }
  destruct (CacheSim_new_fields _ _ _ _ _ _ Hnew)
    as (_ & _ & _ & Hassoc & _ & _ & _ & _ & _ & _ & Ht & Hd & Hv & Hp & _).
  assert (Hbound : (set_base s0 address + lanes s0 <= Z.to_nat (c / bs))%nat).
  { unfold set_base, lanes. rewrite Hassoc.
    rewrite u32_small by nia. nia. }
  split; rewrite ?Ht, ?Hd, ?Hv, ?Hp, ?length_replicate; simpl; try lia.
  intros i Hi. split; apply lookup_total_replicate_2; lia.
Qed.

Lemma fresh_same_geometry s : same_geometry s s.
Proof. unfold same_geometry. tauto. Qed.

Lemma resident_update_stats s instructions type hit dirty_wb address :
  resident (update_stats s instructions type hit dirty_wb) address =
    resident s address.
Proof. reflexivity. Qed.

Lemma split_last (trace : list access) n :
  length trace = S n -> trace = take n trace ++ [trace !!! n].
Proof.
  intros Hlen. rewrite <- (take_ge trace (S n)) at 1 by lia.
  apply take_S_r. apply list_lookup_lookup_total_lt. lia.
Qed.

(** Distinct positions of a trace with pairwise distinct tags carry different
    tags. *)
Lemma tags_distinct (f : access -> Z) (trace : list access) i j :
  NoDup (map f trace) ->
  (i < length trace)%nat -> (j < length trace)%nat ->
  f (trace !!! i) = f (trace !!! j) -> i = j.
Proof.
  intros Hnd Hi Hj Heq.
  apply (NoDup_lookup (map f trace) i j (f (trace !!! i))); [assumption| |].
  - change (map f trace) with (f <$> trace).
    now rewrite list_lookup_fmap, list_lookup_lookup_total_lt.
  - change (map f trace) with (f <$> trace).
    rewrite list_lookup_fmap, list_lookup_lookup_total_lt by assumption.
    rewrite Heq. reflexivity.
Qed.

(** C5. On a valid configuration of associativity A, probing A + 1 addresses
    of one set with pairwise distinct tags, once each from the fresh cache:
    every probe misses; before the last probe the tags of a0 .. a(A-1) are all
    resident; after it the tags of a1 .. aA are resident and that of a0 is
    not. *)
Theorem lru_evicts_first bs a c mp wbp s0 (trace : list access) :
  valid_config bs a c = true ->
  CacheSim_new bs a c mp wbp = Some s0 ->
  length trace = S (lanes s0) ->
  (forall x y, x ∈ trace -> y ∈ trace ->
               get_set s0 (addr_of x) = get_set s0 (addr_of y)) ->
  NoDup (map (fun x => get_tag s0 (addr_of x)) trace) ->
  let A := lanes s0 in
  let before := run s0 (take A trace) in
  let after := run s0 trace in
  Forall (fun o => fst o = false) (outcomes s0 trace)
  /\ (forall i, (i < A)%nat ->
        resident before (addr_of (trace !!! i)) = true)
  /\ (forall i, (1 <= i <= A)%nat ->
        resident after (addr_of (trace !!! i)) = true)
  /\ resident after (addr_of (trace !!! 0%nat)) = false.
Proof.
  intros Hcfg Hnew Hlen Hsame Hnd A before after.
  set (tagf := fun x : access => get_tag s0 (addr_of x)) in *.
  set (base := set_base s0 (addr_of (trace !!! 0%nat))).
  destruct (valid_config_facts _ _ _ Hcfg)
    as (_ & _ & _ & _ & Ha0 & _ & _ & _).
  destruct (CacheSim_new_fields _ _ _ _ _ _ Hnew) as (_ & _ & _ & Hassoc & _).
  assert (Hassoc0 : 0 < associativity s0 < 2 ^ 31) by (rewrite Hassoc; lia).
  assert (HA : (0 < A)%nat) by (unfold A, lanes; lia).
  assert (Hin : forall i, (i < length trace)%nat -> trace !!! i ∈ trace)
    by (intros i Hi; now apply list_elem_of_lookup_total_2).
  assert (Hbase : forall x, x ∈ trace -> set_base s0 (addr_of x) = base).
  { intros x Hx. unfold base, set_base.
    now rewrite (Hsame x (trace !!! 0%nat) Hx (Hin 0%nat ltac:(lia))). }
  pose proof (split_last trace A Hlen) as Hsplit.
  set (init := take A trace) in *. set (final := trace !!! A) in *.
  assert (Hlinit : length init = A) by (unfold init; rewrite length_take; lia).
  assert (Hinit : forall i, (i < A)%nat -> init !!! i = trace !!! i)
    by (intros i Hi; unfold init; now apply lookup_total_take_lt).
  assert (Hnd' : NoDup (map tagf init ++ [tagf final])).
  { rewrite Hsplit, map_app in Hnd. exact Hnd. }
  (* the A fills *)
  destruct (run_fills s0 base init s0 [] Hassoc0 (fresh_same_geometry s0))
    as (Hgeo & Hfs & Hout).
  { pose proof (fresh_filled_set _ _ _ _ _ _ (addr_of (trace !!! 0%nat))
                  Hcfg Hnew) as H0. exact H0. }
  { simpl. lia. }
  { intros x Hx. apply Hbase. rewrite Hsplit. apply elem_of_app. now left. }
  { simpl. apply NoDup_app in Hnd'. tauto. }
  simpl in Hfs. fold tagf in Hfs. fold before in Hgeo, Hfs.
  assert (Hlb : lanes before = A)
    by (destruct Hgeo as (Hg & _); unfold lanes, A; now rewrite Hg).
  assert (Hdec : forall x, x ∈ trace ->
            get_tag before (addr_of x) = tagf x
            /\ set_base before (addr_of x) = base).
  { intros x Hx.
    destruct (same_geometry_decode before s0 (addr_of x) Hgeo) as (-> & -> & _).
    split; [reflexivity|now apply Hbase]. }
  assert (Hfinal : final ∈ trace) by (apply Hin; lia).
  destruct (Hdec final Hfinal) as (Htf & Hbf).
  (* the eviction *)
  destruct final as [[type address] instructions] eqn:Efinal.
  unfold addr_of in Htf, Hbf. simpl in Htf, Hbf.
  destruct (probe_evict_oldest before type address (map tagf init))
    as (s' & Hprobe & Hvalid & Htags).
  { destruct Hgeo as (-> & _). exact Hassoc0. }
  { rewrite Hbf. exact Hfs. }
  { rewrite Hlb. change (length (tagf <$> init) = A).
    now rewrite length_fmap. }
  { rewrite Htf. apply NoDup_app in Hnd'. destruct Hnd' as (_ & Hdisj & _).
    intros Hin'. apply (Hdisj _ Hin'). left. }
  rewrite Hbf, Htf, Hlb in *.
  assert (Hafter : after = update_stats s' instructions type false
                     (dirty before !!! (base + (A - 1))%nat)).
  { unfold after. rewrite Hsplit, run_snoc. fold before.
    rewrite step_eq, Hprobe. reflexivity. }
  pose proof (same_geometry_step before s0 (type, address, instructions) Hgeo)
    as Hgeo'.
  rewrite step_eq, Hprobe in Hgeo'. simpl in Hgeo'.
  assert (Hdec' : forall x, x ∈ trace ->
            get_tag s' (addr_of x) = tagf x
            /\ set_base s' (addr_of x) = base /\ lanes s' = A).
  { intros x Hx.
    destruct (same_geometry_decode _ s0 (addr_of x) Hgeo') as (H1 & H2 & H3).
    unfold get_tag, set_base, get_set, lanes in *. simpl in H1, H2, H3.
    split; [exact H1|]. split; [|exact H3].
    rewrite H2. now apply Hbase. }
  (* what each lane holds before the last probe *)
  assert (Hlane : forall j, (j < A)%nat ->
            valid before !!! (base + j)%nat = true
            /\ tags before !!! (base + j)%nat = tagf (trace !!! (A - 1 - j)%nat)).
  { intros j Hj.
    destruct (fs_warm _ _ _ Hfs j) as (Hv & Ht & _).
    { change (length (tagf <$> init)) with (length (map tagf init)).
      rewrite length_map. lia. }
    split; [exact Hv|]. rewrite Ht, Hlb.
    change (map tagf init) with (tagf <$> init).
    pose proof (list_lookup_total_fmap tagf init (A - 1 - j)%nat ltac:(lia))
      as Hf.
    rewrite Hf. now rewrite Hinit by lia. }
  split; [|split; [|split]].
  - rewrite Hsplit, outcomes_app. fold before. apply Forall_app. split.
    + eapply Forall_impl; [exact Hout|]. intros o ->. reflexivity.
    + rewrite outcomes_cons, step_eq, Hprobe. simpl. repeat constructor.
  - intros i Hi. apply resident_spec.
    destruct (Hdec (trace !!! i) (Hin i ltac:(lia))) as (-> & ->).
    rewrite Hlb. exists (A - 1 - i)%nat.
    destruct (Hlane (A - 1 - i)%nat ltac:(lia)) as (Hv & Ht).
    split; [lia|]. split; [exact Hv|]. rewrite Ht. f_equal. f_equal. lia.
  - intros i Hi. rewrite Hafter, resident_update_stats. apply resident_spec.
    destruct (Hdec' (trace !!! i) (Hin i ltac:(lia))) as (-> & -> & ->).
    rewrite Hvalid, Htags.
    destruct (Nat.eq_dec i A) as [->|Hne].
    + exists (A - 1)%nat. split; [lia|].
      destruct (Hlane (A - 1)%nat ltac:(lia)) as (Hv & _).
      split; [exact Hv|].
      rewrite list_lookup_total_insert_eq
        by (pose proof (fs_tags _ _ _ Hfs); lia).
      fold final. rewrite Efinal. reflexivity.
    + exists (A - 1 - i)%nat. split; [lia|].
      destruct (Hlane (A - 1 - i)%nat ltac:(lia)) as (Hv & Ht).
      split; [exact Hv|].
      rewrite list_lookup_total_insert_ne by lia.
      rewrite Ht. f_equal. f_equal. lia.
  - rewrite Hafter, resident_update_stats.
    destruct (resident s' (addr_of (trace !!! 0%nat))) eqn:Hres; [|reflexivity].
    exfalso. apply resident_spec in Hres.
    destruct (Hdec' (trace !!! 0%nat) (Hin 0%nat ltac:(lia)))
      as (Et & Eb & El).
    rewrite Et, Eb, El, Hvalid, Htags in Hres.
    destruct Hres as (j & Hj & Hv & Ht).
    destruct (Nat.eq_dec j (A - 1)%nat) as [->|Hne].
    + rewrite list_lookup_total_insert_eq in Ht
        by (pose proof (fs_tags _ _ _ Hfs); lia).
      assert (Heq : tagf (trace !!! A) = tagf (trace !!! 0%nat))
        by (fold final; rewrite Efinal; exact Ht).
      apply (tags_distinct tagf trace A 0 Hnd) in Heq; lia.
    + rewrite list_lookup_total_insert_ne in Ht by lia.
      destruct (Hlane j Hj) as (_ & Ht'). rewrite Ht' in Ht.
      apply (tags_distinct tagf trace _ 0 Hnd) in Ht; lia.
Qed.

(** ** The theorems at concrete inputs *)

Lemma two_way_fresh_new : CacheSim_new 16 2 64 30 2 = Some two_way_fresh.
Proof. reflexivity. Qed.

Lemma direct_fresh_new : CacheSim_new 16 1 16384 30 2 = Some direct_fresh.
Proof. vm_compute. reflexivity. Qed.

Ltac in_range :=
  unfold is_u32, is_u64, is_i64;
  split; [apply Z.leb_le|apply Z.ltb_lt]; vm_compute; reflexivity.

(** Reading 0x80 in the full two-way cache evicts lane 1 of set 0, the dirty
    line of largest priority. *)
Lemma probe_miss_install_witness :
  set_in_bounds two_way_full 0x80
  /\ associativity two_way_full < 2 ^ 31
  /\ snd (probe two_way_full false 0x80) = (false, true)
  /\ exists i, (i < lanes two_way_full)%nat
       /\ (forall j, (j < lanes two_way_full)%nat ->
             priority two_way_full !!! (set_base two_way_full 0x80 + j)%nat
             <= priority two_way_full !!! (set_base two_way_full 0x80 + i)%nat)
       /\ (forall j, (j < i)%nat ->
             priority two_way_full !!! (set_base two_way_full 0x80 + j)%nat
             < priority two_way_full !!! (set_base two_way_full 0x80 + i)%nat)
       /\ true = dirty two_way_full !!! (set_base two_way_full 0x80 + i)%nat
       /\ valid (fst (probe two_way_full false 0x80)) = valid two_way_full
       /\ tags (fst (probe two_way_full false 0x80))
            !!! (set_base two_way_full 0x80 + i)%nat
          = get_tag two_way_full 0x80
       /\ dirty (fst (probe two_way_full false 0x80))
            !!! (set_base two_way_full 0x80 + i)%nat
          = false.
Proof.
  assert (Hb : set_in_bounds two_way_full 0x80)
    by (vm_compute; repeat split; lia).
  assert (Hp : probe two_way_full false 0x80 =
               (fst (probe two_way_full false 0x80), (false, true)))
    by (vm_compute; reflexivity).
  assert (Ha : associativity two_way_full < 2 ^ 31)
    by (vm_compute; reflexivity).
  split; [exact Hb|]. split; [exact Ha|]. split; [vm_compute; reflexivity|].
  apply (probe_miss_install two_way_full false 0x80 _ true Hb Ha Hp).
  intros i Hi. change (lanes two_way_full) with 2%nat in Hi.
  destruct i as [|[|i]]; [reflexivity|reflexivity|lia].
Defined.

Lemma decoder_recompose_witness :
  is_pow2 16 = true /\ is_pow2 (sets_of 16 2 64) = true /\ is_u64 0x52
  /\ Z.lor (Z.lor (Z.shiftl (get_tag two_way_fresh 0x52)
                     (Z.log2 16 + Z.log2 (sets_of 16 2 64)))
                  (Z.shiftl (get_set two_way_fresh 0x52) (Z.log2 16)))
           (Z.land 0x52 (16 - 1)) = 0x52.
Proof.
  split; [reflexivity|]. split; [reflexivity|]. split; [in_range|].
  apply (decoder_recompose 16 2 64 30 2 two_way_fresh 0x52);
    try in_range; reflexivity.
Defined.

(** Three tags of set 0 in the two-way cache: the third probe evicts the
    first tag only. *)
Lemma lru_evicts_first_witness :
  valid_config 16 2 64 = true
  /\ length three_tags_trace = S (lanes two_way_fresh)
  /\ resident (run two_way_fresh three_tags_trace)
       (addr_of (three_tags_trace !!! 0%nat)) = false.
Proof.
  split; [reflexivity|]. split; [reflexivity|].
  apply (lru_evicts_first 16 2 64 30 2 two_way_fresh three_tags_trace).
  - reflexivity.
  - reflexivity.
  - reflexivity.
  - intros x y Hx Hy.
    assert (Hall : Forall (fun x => get_set two_way_fresh (addr_of x) = 0)
                     three_tags_trace)
      by (repeat constructor).
    rewrite Forall_forall in Hall.
    now rewrite (Hall x Hx), (Hall y Hy).
  - apply (bool_decide_unpack _). vm_compute. exact I.
Defined.

Lemma update_stats_exact_witness :
  is_i64 (instructions_ two_way_full + 7)
  /\ mem_accesses_ (fst (step two_way_full (true, 0x80, 7)))
     = mem_accesses_ two_way_full + 1
  /\ instructions_ (fst (step two_way_full (true, 0x80, 7)))
     = instructions_ two_way_full + 7
  /\ dirty_wb_ (fst (step two_way_full (true, 0x80, 7))) = 1.
Proof.
  split; [in_range|].
  pose proof (update_stats_exact two_way_full true 0x80 7
                ltac:(in_range) ltac:(in_range) ltac:(in_range)
                ltac:(in_range) ltac:(in_range) ltac:(in_range)) as H.
  cbv zeta in H. destruct H as (H1 & _ & _ & H4 & H5 & _).
  split; [exact H1|]. split; [exact H4|]. exact H5.
Defined.

(** The report of the direct-mapped scenario. *)
Lemma dump_stats_arith_witness :
  misses_ (run direct_fresh scenario_trace) = 3
  /\ instructions_ (run direct_fresh scenario_trace) = 4
  /\ r_cycles (dump_stats (run direct_fresh scenario_trace)) = 94
  /\ r_hits (dump_stats (run direct_fresh scenario_trace)) = 1
  /\ r_ipc (dump_stats (run direct_fresh scenario_trace))
     = PrimFloat.div 4%float 94%float.
Proof.
  split; [vm_compute; reflexivity|]. split; [vm_compute; reflexivity|].
  pose proof (dump_stats_arith (run direct_fresh scenario_trace)
                ltac:(in_range) ltac:(in_range) ltac:(in_range)
                ltac:(in_range) ltac:(in_range)) as H.
  cbv zeta in H. destruct H as (_ & H2 & _ & H4).
  destruct H4 as [Hc Hi]; try (vm_compute; reflexivity).
  split; [exact Hc|]. split; [|exact Hi].
  rewrite H2. vm_compute. reflexivity.
Defined.

Lemma construct_unchecked_witness :
  is_pow2 24 = false
  /\ exists s,
       CacheSim_new 24 1 16384 30 2 = Some s
       /\ set_offset s = popcount (u32 (24 - 1))
       /\ set_mask s = u32 (16384 / u32 (24 * 1) - 1)
       /\ tag_offset s = set_offset s + popcount (set_mask s)
       /\ length (valid s) = Z.to_nat (16384 / 24)
       /\ forall j, (j < length (valid s))%nat -> valid s !!! j = false.
Proof.
  split; [reflexivity|].
  apply (construct_unchecked 24 1 16384 30 2).
  - discriminate.
  - vm_compute. discriminate.
Defined.

(** The fresh two-way cache (no access), and the same cache after one read
    charged with -30 instructions: one access, one miss, [cycles] 0, [ipc] an
    infinity. *)
Lemma report_divides_unguarded_witness :
  (mem_accesses_ two_way_fresh = 0
   /\ PrimFloat.is_nan (r_miss_rate (dump_stats two_way_fresh)) = true
   /\ PrimFloat.is_nan (r_ipc (dump_stats two_way_fresh)) = true)
  /\ (mem_accesses_ (run two_way_fresh negative_count_trace) = 1
      /\ r_cycles (dump_stats (run two_way_fresh negative_count_trace)) = 0
      /\ not_finite (r_ipc (dump_stats (run two_way_fresh negative_count_trace)))
         = true).
Proof.
  split.
  - destruct (report_divides_unguarded two_way_fresh (or_introl eq_refl))
      as (Hm & Hi & Hc).
    split; [reflexivity|].
    split; [exact (proj2 (Hm eq_refl) eq_refl)|].
    exact (proj2 (Hi (Hc eq_refl eq_refl eq_refl)) eq_refl).
  - assert (Hc : r_cycles (dump_stats (run two_way_fresh negative_count_trace))
                 = 0) by (vm_compute; reflexivity).
    destruct (report_divides_unguarded
                (run two_way_fresh negative_count_trace) (or_intror Hc))
      as (_ & Hi & _).
    split; [vm_compute; reflexivity|]. split; [exact Hc|].
    exact (proj1 (Hi Hc)).
Defined.


(** * Further properties of the code *)

(** ** Set indices stay inside the vectors *)

Lemma land_bounds a m : 0 <= m -> 0 <= Z.land a m <= m.
Proof.
  intros Hm. split; [apply Z.land_nonneg; now right|].
  assert (Hd : Z.ldiff (Z.land a m) m = 0).
  { apply Z.bits_inj'. intros n Hn.
    rewrite Z.ldiff_spec, Z.land_spec, Z.bits_0.
    destruct (Z.testbit a n), (Z.testbit m n); reflexivity. }
  pose proof (Z.sub_nocarry_ldiff m (Z.land a m) Hd) as Hsub.
  assert (0 <= Z.ldiff m (Z.land a m)) by (apply Z.ldiff_nonneg; now left).
  lia.
Qed.

(** The conversions of [set * associativity] cancel: the set index goes to
    [int] and back to [unsigned]. *)
Lemma u32_i32_mul x A : u32 (i32 x * A) = u32 (x * A).
Proof.
  unfold u32, i32. rewrite (Z.mod_eq (x + 2 ^ 31) (2 ^ 32)) by lia.
  replace ((x + 2 ^ 31 - 2 ^ 32 * ((x + 2 ^ 31) / 2 ^ 32) - 2 ^ 31) * A)
    with (x * A + (- ((x + 2 ^ 31) / 2 ^ 32) * A) * 2 ^ 32) by ring.
  apply Z_mod_plus_full.
Qed.

(** In a well-formed state the base of every address is the first slot of a
    whole set inside the vectors. *)
Lemma set_base_wf s address :
  wf s ->
  exists k : nat,
    set_base s address = (k * lanes s)%nat
    /\ (k * lanes s + lanes s <= length (priority s))%nat.
Proof.
  intros Hwf. destruct Hwf as [Ha Hm Hfit Hsz _ _ _ _].
  set (x := Z.land (Z.shiftr address (set_offset s)) (set_mask s)).
  pose proof (land_bounds (Z.shiftr address (set_offset s)) _ Hm) as Hx.
  fold x in Hx.
  exists (Z.to_nat x). unfold set_base, get_set, lanes. fold x.
  rewrite u32_i32_mul. rewrite u32_small by nia.
  split; [rewrite Z2Nat.inj_mul by lia; reflexivity|]. nia.
Qed.

Lemma wf_set_in_bounds s address : wf s -> set_in_bounds s address.
Proof.
  intros Hwf. destruct (set_base_wf s address Hwf) as (k & Hk & Hle).
  destruct Hwf as [Ha _ _ _ Ht Hd Hv _].
  unfold set_in_bounds. rewrite Ht, Hd, Hv, Hk.
  repeat split; try exact Hle. unfold lanes. lia.
Qed.

(** The lambda keeps a priority between 0 and the associativity. *)
Lemma bump_range assoc pidx p :
  assoc < 2 ^ 31 -> 0 <= p <= assoc -> 0 <= bump assoc pidx p <= assoc.
Proof.
  intros Ha Hp. unfold bump. rewrite u32_small by lia.
  destruct ((p <=? pidx) && (p <? assoc)) eqn:E; [|exact Hp].
  apply andb_true_iff in E. destruct E as [_ E]. apply Z.ltb_lt in E.
  rewrite i32_small by lia. lia.
Qed.

Lemma transform_priority_range assoc base index n : forall i pr,
  assoc < 2 ^ 31 ->
  Forall (fun p => 0 <= p <= assoc) pr ->
  Forall (fun p => 0 <= p <= assoc)
    (transform_priority assoc base index n i pr).
Proof.
  induction n as [|n IH]; intros i pr Ha Hall; simpl; [exact Hall|].
  apply IH; [exact Ha|].
  destruct (Nat.lt_ge_cases (base + i) (length pr)) as [Hlt|Hge].
  - apply Forall_insert; [exact Hall|].
    apply bump_range; [exact Ha|].
    exact (Forall_lookup_total_1 _ pr (base + i)%nat Hall Hlt).
  - now rewrite list_insert_ge.
Qed.

Lemma update_priority_range assoc base index n pr :
  0 <= assoc < 2 ^ 31 ->
  Forall (fun p => 0 <= p <= assoc) pr ->
  Forall (fun p => 0 <= p <= assoc) (update_priority assoc base index n pr).
Proof.
  intros Ha Hall. unfold update_priority.
  apply Forall_insert; [|lia]. apply transform_priority_range; [lia|exact Hall].
Qed.

Lemma wf_probe s type address s' out :
  wf s -> probe s type address = (s', out) -> wf s'.
Proof.
  intros [Ha Hm Hfit Hsz Ht Hd Hv Hp] H.
  destruct (probe_config _ _ _ _ _ H) as (_ & Ea & _ & _ & _ & _ & _ & Em).
  destruct (probe_writes _ _ _ _ _ H) as (Epr & _ & Lt & Ld & Lv & Lp).
  split; rewrite ?Ea, ?Em, ?Lt, ?Ld, ?Lv, ?Lp; try assumption.
  rewrite Epr. apply update_priority_range; [lia|exact Hp].
Qed.

Lemma wf_update_stats s instructions type hit dirty_wb :
  wf s -> wf (update_stats s instructions type hit dirty_wb).
Proof. intros [H1 H2 H3 H4 H5 H6 H7 H8]. split; assumption. Qed.

Lemma wf_step s a : wf s -> wf (fst (step s a)).
Proof.
  intros Hwf. destruct a as [[type address] instructions].
  rewrite step_eq. simpl. apply wf_update_stats.
  apply (wf_probe s type address _ (snd (probe s type address)) Hwf).
  apply surjective_pairing.
Qed.

Lemma wf_run trace : forall s, wf s -> wf (run s trace).
Proof.
  induction trace as [|a trace IH]; intros s Hwf; [exact Hwf|].
  rewrite run_cons. apply IH. now apply wf_step.
Qed.

Lemma fits_config_facts bs a c :
  fits_config bs a c = true ->
  0 < bs /\ 0 < a < 2 ^ 31 /\ 0 <= c < 2 ^ 32 /\ bs * a <= c.
Proof.
  unfold fits_config. rewrite !andb_true_iff, !Z.ltb_lt, Z.leb_le.
  intros H. repeat split; try tauto; nia.
Qed.

Lemma wf_new bs a c mp wbp s :
  fits_config bs a c = true -> CacheSim_new bs a c mp wbp = Some s -> wf s.
Proof.
  intros Hcfg Hnew.
  destruct (fits_config_facts _ _ _ Hcfg) as (Hbs & Ha & Hc & Hprod).
  destruct (CacheSim_new_fields _ _ _ _ _ _ Hnew)
    as (_ & _ & _ & Ea & _ & _ & _ & _ & Em & _ & Et & Ed & Ev & Ep & _).
  pose proof (sets_fit bs a c Hbs ltac:(lia) ltac:(lia) ltac:(lia)) as Hfit.
  assert (Hsets : 1 <= sets_of bs a c).
  { unfold sets_of. rewrite u32_small by nia.
    apply Z.div_le_lower_bound; nia. }
  assert (Hdiv : 0 <= c / bs < 2 ^ 32).
  { split; [apply Z.div_pos; lia|]. apply Z.div_lt_upper_bound; nia. }
  assert (Hmask : set_mask s = sets_of bs a c - 1)
    by (rewrite Em; apply u32_small; nia).
  split; rewrite ?Ea, ?Et, ?Ed, ?Ev, ?Ep, ?length_replicate, ?Hmask; try lia.
  apply Forall_replicate. lia.
Qed.

(** X1. Memory safety of a run: on a configuration whose sets fit, whatever
    the trace, the vectors keep the length the constructor gave them and the
    set of every address lies inside all four of them, so no span of [probe]
    reaches outside its vector. Powers of two are not needed for this. *)
Theorem run_stays_in_bounds bs a c mp wbp s0 trace address :
  fits_config bs a c = true ->
  CacheSim_new bs a c mp wbp = Some s0 ->
  set_in_bounds (run s0 trace) address
  /\ length (tags (run s0 trace)) = Z.to_nat (c / bs)
  /\ length (dirty (run s0 trace)) = Z.to_nat (c / bs)
  /\ length (valid (run s0 trace)) = Z.to_nat (c / bs)
  /\ length (priority (run s0 trace)) = Z.to_nat (c / bs).
Proof.
  intros Hcfg Hnew. pose proof (wf_new _ _ _ _ _ _ Hcfg Hnew) as Hwf0.
  split; [apply wf_set_in_bounds, wf_run, Hwf0|].
  destruct (CacheSim_new_fields _ _ _ _ _ _ Hnew)
    as (_ & _ & _ & _ & _ & _ & _ & _ & _ & _ & Et & Ed & Ev & Ep & _).
  assert (Hlen : forall tr s,
            length (tags (run s tr)) = length (tags s)
            /\ length (dirty (run s tr)) = length (dirty s)
            /\ length (valid (run s tr)) = length (valid s)
            /\ length (priority (run s tr)) = length (priority s)).
  { induction tr as [|[[ty ad] ins] tr IH]; intros s; [tauto|].
    rewrite run_cons.
    destruct (IH (fst (step s (ty, ad, ins)))) as (-> & -> & -> & ->).
    rewrite step_eq. simpl.
    destruct (probe_writes s ty ad _ _ (surjective_pairing _))
      as (_ & _ & Lt & Ld & Lv & Lp).
    tauto. }
  destruct (Hlen trace s0) as (-> & -> & -> & ->).
  rewrite Et, Ed, Ev, Ep, !length_replicate. tauto.
Qed.

(** X2. Every priority a run ever stores lies between 0 and the
    associativity (inclusive: the guard [p < associativity] lets a priority
    reach the associativity itself), so the [int] increments never
    overflow. *)
Theorem run_priority_range bs a c mp wbp s0 trace :
  fits_config bs a c = true ->
  CacheSim_new bs a c mp wbp = Some s0 ->
  Forall (fun p => 0 <= p <= a) (priority (run s0 trace)).
Proof.
  intros Hcfg Hnew.
  pose proof (wf_run trace s0 (wf_new _ _ _ _ _ _ Hcfg Hnew)) as Hwf.
  destruct (CacheSim_new_fields _ _ _ _ _ _ Hnew) as (_ & _ & _ & Ea & _).
  assert (Hgeo : same_geometry (run s0 trace) s0).
  { clear Hwf. generalize (fresh_same_geometry s0).
    generalize s0 at 1 3. induction trace as [|x tr IH]; intros s Hs; [exact Hs|].
    rewrite run_cons. apply IH. now apply same_geometry_step. }
  destruct Hgeo as (Ha' & _). rewrite <- Ea, <- Ha'. apply (wf_prio _ Hwf).
Qed.

(** ** The lookup loop and residency *)

(** The loop finds a lane as soon as some valid lane of the range holds the
    tag. *)
Lemma scan_set_finds vl tg base tag n i inv j :
  (i <= j < i + n)%nat -> vl !!! (base + j)%nat = true ->
  tg !!! (base + j)%nat = tag ->
  exists k, fst (scan_set vl tg base tag n i inv) = Some k.
Proof.
  intros Hj Hv Ht.
  destruct (scan_set vl tg base tag n i inv) as [[k|] inv'] eqn:E;
    [now exists k|].
  exfalso. exact (scan_set_miss _ _ _ _ _ _ _ _ E j Hj Hv Ht).
Qed.

Lemma probe_hit_scan s type address :
  fst (snd (probe s type address)) =
    match fst (scan_set (valid s) (tags s) (set_base s address)
                 (get_tag s address) (lanes s) 0 (-1)) with
    | Some _ => true
    | None => false
    end.
Proof.
  unfold probe. destruct (scan_set _ _ _ _ _ _ _) as [[k|] inv]; simpl;
    [reflexivity|].
  destruct (0 <=? inv); reflexivity.
Qed.

Lemma probe_hit_resident s type address :
  fst (snd (probe s type address)) = resident s address.
Proof.
  rewrite probe_hit_scan.
  destruct (resident s address) eqn:R.
  - apply resident_spec in R. destruct R as (j & Hj & Hv & Ht).
    destruct (scan_set_finds (valid s) (tags s) (set_base s address)
                (get_tag s address) (lanes s) 0 (-1) j ltac:(lia) Hv Ht)
      as (k & ->). reflexivity.
  - destruct (scan_set _ _ _ _ _ _ _) as [[k|] inv] eqn:E; [|reflexivity].
    apply scan_set_hit in E. destruct E as (Hk & Hv & Ht).
    assert (R' : resident s address = true)
      by (apply resident_spec; exists k; repeat split; auto; lia).
    congruence.
Qed.

(** What a hit does: nothing but the dirty flag of the hit lane. *)
Lemma probe_hit_shape s type address s' wb :
  probe s type address = (s', (true, wb)) ->
  let slot := (set_base s address + touched_lane s address)%nat in
  wb = false
  /\ (touched_lane s address < lanes s)%nat
  /\ valid s !!! slot = true
  /\ tags s !!! slot = get_tag s address
  /\ tags s' = tags s
  /\ valid s' = valid s
  /\ dirty s' = <[slot := dirty s !!! slot || type]> (dirty s).
Proof.
  unfold probe, touched_lane.
  destruct (scan_set _ _ _ _ _ _ _) as [[k|] inv] eqn:E.
  - apply scan_set_hit in E. destruct E as (Hk & Hv & Ht).
    intros H. inversion H; subst; clear H. simpl.
    repeat split; auto; lia.
  - destruct (0 <=? inv); intros H; inversion H.
Qed.

(** What a miss does: one slot gets the tag, the kind as dirty flag, and is
    valid; no valid lane of the set held the tag. *)
Lemma probe_miss_shape s type address s' wb :
  set_in_bounds s address ->
  probe s type address = (s', (false, wb)) ->
  let slot := (set_base s address + touched_lane s address)%nat in
  (touched_lane s address < lanes s)%nat
  /\ tags s' = <[slot := get_tag s address]> (tags s)
  /\ dirty s' = <[slot := type]> (dirty s)
  /\ valid s' = <[slot := true]> (valid s)
  /\ (forall j, (j < lanes s)%nat ->
        valid s !!! (set_base s address + j)%nat = true ->
        tags s !!! (set_base s address + j)%nat <> get_tag s address).
Proof.
  intros (Hn & Ht & Hd & Hv & Hp) H slot.
  pose proof (touched_lane_lt s address Hn) as Hlt.
  subst slot. unfold probe in H. unfold touched_lane in *.
  destruct (scan_set _ _ _ _ _ _ _) as [[k|] inv] eqn:E; [discriminate|].
  pose proof (scan_set_miss _ _ _ _ _ _ _ _ E) as Hmiss.
  assert (Hno : forall j, (j < lanes s)%nat ->
            valid s !!! (set_base s address + j)%nat = true ->
            tags s !!! (set_base s address + j)%nat <> get_tag s address)
    by (intros j Hj; apply Hmiss; lia).
  apply scan_set_invalid in E.
  destruct E as [[-> Hall]|(j & Hj & -> & Hf & _)].
  - simpl in *. inversion H; subst; clear H. simpl.
    repeat split; auto.
    symmetry. apply list_insert_id.
    rewrite list_lookup_lookup_total_lt by lia. f_equal. apply Hall. lia.
  - destruct (0 <=? Z.of_nat j) eqn:E0; [|lia].
    inversion H; subst; clear H. simpl. repeat split; auto.
Qed.

(** X3. On a set that lies inside the vectors, [probe] hits exactly when the
    address is resident: some valid lane of its set holds its tag. *)
Theorem probe_hits_iff_resident s type address s' hit wb :
  set_in_bounds s address ->
  probe s type address = (s', (hit, wb)) ->
  hit = true <->
  exists i, (i < lanes s)%nat
    /\ valid s !!! (set_base s address + i)%nat = true
    /\ tags s !!! (set_base s address + i)%nat = get_tag s address.
Proof.
  intros _ H.
  rewrite <- resident_spec, <- (probe_hit_resident s type address), H.
  reflexivity.
Qed.

(** X4. On a set that lies inside the vectors and has fewer than 2^31 lanes,
    a hit changes no tag and no valid flag, reports no write-back, and only
    ors the access kind into the dirty flag of the lane it found: a write hit
    marks the line dirty, a read hit leaves its dirty flag as it was. *)
Theorem probe_hit_effect s type address s' wb :
  set_in_bounds s address ->
  associativity s < 2 ^ 31 ->
  probe s type address = (s', (true, wb)) ->
  exists i, (i < lanes s)%nat
    /\ valid s !!! (set_base s address + i)%nat = true
    /\ tags s !!! (set_base s address + i)%nat = get_tag s address
    /\ wb = false
    /\ tags s' = tags s /\ valid s' = valid s
    /\ dirty s' =
         <[(set_base s address + i)%nat :=
             dirty s !!! (set_base s address + i)%nat || type]> (dirty s).
Proof.
  intros _ _ H.
  destruct (probe_hit_shape _ _ _ _ _ H) as (Hwb & Hlt & Hv & Ht & R).
  exists (touched_lane s address). tauto.
Qed.

(** The line a probe leaves in the touched lane. *)
Lemma probe_touched_line s type address s' hit wb :
  set_in_bounds s address ->
  probe s type address = (s', (hit, wb)) ->
  let slot := (set_base s address + touched_lane s address)%nat in
  valid s' !!! slot = true
  /\ tags s' !!! slot = get_tag s address
  /\ dirty s' !!! slot = (if hit then dirty s !!! slot || type else type).
Proof.
  intros Hb H slot. pose proof Hb as (Hn & Ht & Hd & Hv & Hp).
  pose proof (touched_lane_lt s address Hn) as Hlt.
  destruct hit.
  - destruct (probe_hit_shape _ _ _ _ _ H) as (_ & _ & Hv' & Ht' & -> & -> & ->).
    fold slot in Hv', Ht' |- *.
    rewrite list_lookup_total_insert_eq by (unfold slot; lia). tauto.
  - destruct (probe_miss_shape _ _ _ _ _ Hb H) as (_ & -> & -> & -> & _).
    fold slot. rewrite !list_lookup_total_insert_eq by (unfold slot; lia).
    tauto.
Qed.

Lemma probe_same_geometry s type address s' out :
  probe s type address = (s', out) -> same_geometry s' s.
Proof.
  intros H. destruct (probe_config _ _ _ _ _ H) as (_ & Ea & _ & _ & _ & Eo & Et & Em).
  unfold same_geometry. tauto.
Qed.

(** X5. On a set that lies inside the vectors and has fewer than 2^31 lanes,
    probing an address makes it resident: right after any probe, a second
    probe of the same address, of either kind, hits and reports no
    write-back. *)
Theorem probe_then_hit s type address s' out type' :
  set_in_bounds s address ->
  associativity s < 2 ^ 31 ->
  probe s type address = (s', out) ->
  resident s' address = true
  /\ snd (probe s' type' address) = (true, false).
Proof.
  intros Hb _ H. destruct out as [hit wb].
  destruct (probe_touched_line _ _ _ _ _ _ Hb H) as (Hv & Ht & _).
  destruct (same_geometry_decode s' s address (probe_same_geometry _ _ _ _ _ H))
    as (Etag & Ebase & El).
  assert (Hlt : (touched_lane s address < lanes s)%nat)
    by (apply touched_lane_lt; destruct Hb; assumption).
  assert (R : resident s' address = true).
  { apply resident_spec. exists (touched_lane s address).
    rewrite Etag, Ebase, El. tauto. }
  split; [exact R|].
  destruct (probe s' type' address) as [s'' [hit' wb']] eqn:E.
  pose proof (probe_hit_resident s' type' address) as Hh.
  rewrite E, R in Hh. simpl in Hh. subst hit'.
  destruct (probe_hit_shape _ _ _ _ _ E) as (-> & _). reflexivity.
Qed.

(** A write-back is only ever reported by a miss that found every lane of the
    set valid, and is the dirty flag of the first lane of largest priority. *)
Lemma probe_wb_shape s type address s' hit :
  probe s type address = (s', (hit, true)) ->
  hit = false
  /\ (forall j, (j < lanes s)%nat ->
        valid s !!! (set_base s address + j)%nat = true)
  /\ dirty s !!! (set_base s address
                  + max_element (priority s) (set_base s address) (lanes s))%nat
     = true.
Proof.
  unfold probe.
  destruct (scan_set _ _ _ _ _ _ _) as [[k|] inv] eqn:E;
    [intros H; inversion H|].
  apply scan_set_invalid in E.
  destruct E as [[-> Hall]|(j & Hj & -> & _)].
  - simpl. intros H. split; [congruence|]. split; [|congruence].
    intros j Hj. apply Hall. lia.
  - destruct (0 <=? Z.of_nat j) eqn:E0; [|lia]. intros H; inversion H.
Qed.

(** X6. The first probe of a fresh cache misses without write-back, whatever
    the address and the kind. *)
Theorem cold_probe_misses bs a c mp wbp s0 type address :
  fits_config bs a c = true ->
  CacheSim_new bs a c mp wbp = Some s0 ->
  snd (probe s0 type address) = (false, false).
Proof.
  intros Hcfg Hnew.
  pose proof (wf_set_in_bounds s0 address (wf_new _ _ _ _ _ _ Hcfg Hnew))
    as (Hn & _ & _ & Hv & _).
  destruct (CacheSim_new_fields _ _ _ _ _ _ Hnew)
    as (_ & _ & _ & _ & _ & _ & _ & _ & _ & _ & _ & _ & Ev & _).
  assert (Hcold : forall j, (j < lanes s0)%nat ->
            valid s0 !!! (set_base s0 address + j)%nat = false).
  { intros j Hj. rewrite Ev in *. rewrite length_replicate in Hv.
    apply lookup_total_replicate_2. lia. }
  destruct (probe s0 type address) as [s' [hit wb]] eqn:E. simpl.
  assert (Hhit : hit = false).
  { pose proof (probe_hit_resident s0 type address) as Hh.
    rewrite E in Hh. simpl in Hh. rewrite Hh.
    destruct (resident s0 address) eqn:R; [|reflexivity].
    apply resident_spec in R. destruct R as (j & Hj & Hvj & _).
    rewrite Hcold in Hvj by exact Hj. discriminate. }
  subst hit. destruct wb; [|reflexivity].
  destruct (probe_wb_shape _ _ _ _ _ E) as (_ & Hall & _).
  specialize (Hall 0%nat Hn). rewrite Hcold in Hall by exact Hn. discriminate.
Qed.

Lemma probe_valid_monotone s type address s' out j :
  probe s type address = (s', out) ->
  valid s !! j = Some true -> valid s' !! j = Some true.
Proof.
  unfold probe. destruct (scan_set _ _ _ _ _ _ _) as [[k|] inv].
  - intros H; inversion H; subst; simpl. auto.
  - destruct (0 <=? inv); intros H; inversion H; subst; simpl; auto.
    intros Hj.
    destruct (Nat.eq_dec (set_base s address + Z.to_nat inv)%nat j) as [<-|Hne].
    + apply list_lookup_insert_eq. now apply lookup_lt_Some in Hj.
    + now rewrite list_lookup_insert_ne.
Qed.

(** X7. No line ever goes back to invalid: from a well-formed state (every
    set inside the vectors, associativity below 2^31) a slot that is valid
    stays valid through any run. *)
Theorem run_valid_monotone trace : forall s j,
  wf s ->
  valid s !! j = Some true -> valid (run s trace) !! j = Some true.
Proof.
  induction trace as [|[[ty ad] ins] trace IH]; intros s j Hwf Hj; [exact Hj|].
  rewrite run_cons. apply IH; [now apply wf_step|]. rewrite step_eq. simpl.
  exact (probe_valid_monotone s ty ad _ _ j (surjective_pairing _) Hj).
Qed.

Lemma probe_read_dirty s address s' out j :
  probe s false address = (s', out) ->
  dirty s' !! j = Some true -> dirty s !! j = Some true.
Proof.
  unfold probe. destruct (scan_set _ _ _ _ _ _ _) as [[k|] inv].
  - intros H; inversion H; subst; simpl. rewrite orb_false_r.
    intros Hj.
    destruct (Nat.eq_dec (set_base s address + k)%nat j) as [<-|Hne].
    + pose proof (lookup_lt_Some _ _ _ Hj) as Hlt.
      rewrite length_insert in Hlt.
      rewrite list_lookup_insert_eq in Hj by exact Hlt.
      rewrite list_lookup_lookup_total_lt by exact Hlt. exact Hj.
    + now rewrite list_lookup_insert_ne in Hj.
  - destruct (0 <=? inv); intros H; inversion H; subst; simpl; intros Hj.
    + destruct (Nat.eq_dec (set_base s address + Z.to_nat inv)%nat j) as [<-|Hne].
      * pose proof (lookup_lt_Some _ _ _ Hj) as Hlt.
        rewrite length_insert in Hlt.
        rewrite list_lookup_insert_eq in Hj by exact Hlt. discriminate.
      * now rewrite list_lookup_insert_ne in Hj.
    + set (m := max_element (priority s) (set_base s address) (lanes s)) in *.
      destruct (Nat.eq_dec (set_base s address + m)%nat j) as [<-|Hne].
      * pose proof (lookup_lt_Some _ _ _ Hj) as Hlt.
        rewrite length_insert in Hlt.
        rewrite list_lookup_insert_eq in Hj by exact Hlt. discriminate.
      * now rewrite list_lookup_insert_ne in Hj.
Qed.

(** X8. Reads never dirty a line, so a trace of reads run on a fresh cache
    reports no write-back at all and leaves every dirty flag clear. *)
Theorem read_only_no_writeback bs a c mp wbp s0 trace :
  fits_config bs a c = true ->
  CacheSim_new bs a c mp wbp = Some s0 ->
  Forall (fun x => is_write x = false) trace ->
  Forall (fun o => snd o = false) (outcomes s0 trace)
  /\ Forall (fun d => d = false) (dirty (run s0 trace)).
Proof.
  intros Hcfg Hnew Hreads.
  pose proof (wf_new _ _ _ _ _ _ Hcfg Hnew) as Hwf0.
  assert (Hclean0 : Forall (fun d => d = false) (dirty s0)).
  { destruct (CacheSim_new_fields _ _ _ _ _ _ Hnew)
      as (_ & _ & _ & _ & _ & _ & _ & _ & _ & _ & _ & -> & _).
    now apply Forall_replicate. }
  clear Hcfg Hnew. revert s0 Hwf0 Hclean0.
  induction Hreads as [|[[ty ad] ins] trace Hr _ IH]; intros s Hwf Hclean.
  - split; [constructor|exact Hclean].
  - unfold is_write in Hr. simpl in Hr. subst ty.
    rewrite run_cons, outcomes_cons, step_eq.
    destruct (probe s false ad) as [s' [hit wb]] eqn:E. simpl.
    assert (Hclean' : Forall (fun d => d = false) (dirty s')).
    { apply Forall_lookup. intros j d Hj. destruct d; [|reflexivity].
      pose proof (probe_read_dirty _ _ _ _ j E Hj) as Hold.
      rewrite Forall_lookup in Hclean. exact (Hclean _ _ Hold). }
    assert (Hwb : wb = false).
    { destruct wb; [|reflexivity].
      destruct (probe_wb_shape _ _ _ _ _ E) as (_ & _ & Hd).
      pose proof (wf_set_in_bounds s ad Hwf) as (Hn & _ & Hdl & _).
      pose proof (max_element_spec (priority s) (set_base s ad) (lanes s) Hn)
        as (Hm & _).
      pose proof (Forall_lookup_total_1 _ _
                    (set_base s ad
                     + max_element (priority s) (set_base s ad) (lanes s))%nat
                    Hclean ltac:(lia)) as Hf.
      simpl in Hf. congruence. }
    destruct (IH (update_stats s' ins false hit wb)) as (IH1 & IH2).
    + apply wf_update_stats. exact (wf_probe _ _ _ _ _ Hwf E).
    + exact Hclean'.
    + split; [constructor; [exact Hwb|exact IH1]|exact IH2].
Qed.

(** X9. On a set that lies inside the vectors and has fewer than 2^31 lanes,
    a probe rewrites the tag, dirty and valid entry of at most one slot, a
    lane of the probed set: a miss displaces at most one line. *)
Theorem probe_single_slot s type address s' out :
  set_in_bounds s address ->
  associativity s < 2 ^ 31 ->
  probe s type address = (s', out) ->
  exists i, (i < lanes s)%nat
    /\ forall j, j <> (set_base s address + i)%nat ->
         tags s' !! j = tags s !! j /\ dirty s' !! j = dirty s !! j
         /\ valid s' !! j = valid s !! j.
Proof.
  intros (Hn & _) _ H. exists (touched_lane s address).
  split; [now apply touched_lane_lt|].
  destruct (probe_writes _ _ _ _ _ H) as (_ & Hother & _). exact Hother.
Qed.

(** ** The most recently used line *)

Lemma bump_pos assoc q p :
  0 < assoc < 2 ^ 31 -> 0 <= p <= assoc -> 0 <= q -> 1 <= bump assoc q p.
Proof.
  intros Ha Hp Hq. unfold bump. rewrite u32_small by lia.
  destruct (Z.leb_spec p q); destruct (Z.ltb_spec p assoc); simpl;
    try lia.
  rewrite i32_small by lia. lia.
Qed.

Lemma bump_nonneg assoc q p :
  0 < assoc < 2 ^ 31 -> 0 <= p <= assoc -> 0 <= bump assoc q p.
Proof. intros Ha Hp. pose proof (bump_range assoc q p). lia. Qed.

(** After a probe the touched lane holds the probed line at priority 0 and
    every other lane of the set has a priority of at least 1. *)
Lemma probe_mru s type address s' out :
  wf s -> probe s type address = (s', out) ->
  let base := set_base s address in
  let t := touched_lane s address in
  (t < lanes s)%nat
  /\ priority s' !!! (base + t)%nat = 0
  /\ valid s' !!! (base + t)%nat = true
  /\ tags s' !!! (base + t)%nat = get_tag s address
  /\ forall j, (j < lanes s)%nat -> j <> t ->
       1 <= priority s' !!! (base + j)%nat.
Proof.
  intros Hwf H base t. pose proof (wf_set_in_bounds s address Hwf) as Hb.
  destruct out as [hit wb].
  destruct (probe_recency _ _ _ _ _ Hb H) as (Hlt & Hp0 & Hother).
  destruct (probe_touched_line _ _ _ _ _ _ Hb H) as (Hv & Ht & _).
  fold base t in Hlt, Hp0, Hother, Hv, Ht.
  repeat split; auto.
  intros j Hj Hne. rewrite (Hother j Hj Hne).
  destruct Hb as (_ & _ & _ & _ & Hlp). fold base in Hlp.
  pose proof (wf_assoc _ Hwf) as Ha.
  assert (Hrange : forall i, (i < lanes s)%nat ->
            0 <= priority s !!! (base + i)%nat <= associativity s).
  { intros i Hi.
    exact (Forall_lookup_total_1 _ _ (base + i)%nat (wf_prio _ Hwf)
             ltac:(lia)). }
  apply bump_pos; [exact Ha|now apply Hrange|].
  destruct (decide (t < j)%nat).
  - apply bump_nonneg; [exact Ha|now apply Hrange].
  - now apply Hrange.
Qed.

(** X10. After any probe the touched line is the only line of its set ranked
    0: it is valid, holds the probed tag, and every other lane of the set has
    a priority of at least 1. *)
Theorem probe_mru_unique s type address s' out :
  wf s -> probe s type address = (s', out) ->
  exists t, (t < lanes s)%nat
    /\ valid s' !!! (set_base s address + t)%nat = true
    /\ tags s' !!! (set_base s address + t)%nat = get_tag s address
    /\ forall j, (j < lanes s)%nat ->
         (priority s' !!! (set_base s address + j)%nat = 0 <-> j = t).
Proof.
  intros Hwf H.
  destruct (probe_mru _ _ _ _ _ Hwf H) as (Hlt & Hp0 & Hv & Ht & Hother).
  exists (touched_lane s address). repeat split; auto.
  - intros Hz. destruct (Nat.eq_dec j (touched_lane s address)) as [|Hne];
      [assumption|].
    specialize (Hother j H0 Hne). lia.
  - intros ->. exact Hp0.
Qed.

(** The lane a miss refills is invalid, or else of largest priority. *)
Lemma touched_lane_miss s type address s' wb :
  set_in_bounds s address ->
  probe s type address = (s', (false, wb)) ->
  valid s !!! (set_base s address + touched_lane s address)%nat = false
  \/ forall j, (j < lanes s)%nat ->
       priority s !!! (set_base s address + j)%nat
       <= priority s !!! (set_base s address + touched_lane s address)%nat.
Proof.
  intros (Hn & _) H. unfold probe in H. unfold touched_lane.
  destruct (scan_set _ _ _ _ _ _ _) as [[k|] inv] eqn:E; [discriminate|].
  apply scan_set_invalid in E.
  destruct E as [[-> _]|(j & Hj & -> & Hf & _)].
  - right. simpl. now apply max_element_spec.
  - left. destruct (0 <=? Z.of_nat j) eqn:E0; [|lia].
    now rewrite Nat2Z.id.
Qed.

(** X11. With at least two lanes per set, the line a probe touched survives
    the next probe of the same set: that probe, hit or miss, never displaces
    it. *)
Theorem mru_survives s type1 address1 s1 out1 type2 address2 s2 out2 :
  wf s -> (2 <= lanes s)%nat ->
  probe s type1 address1 = (s1, out1) ->
  set_base s address2 = set_base s address1 ->
  probe s1 type2 address2 = (s2, out2) ->
  resident s2 address1 = true.
Proof.
  intros Hwf H2 P1 Hsame P2.
  pose proof (wf_probe _ _ _ _ _ Hwf P1) as Hwf1.
  destruct (probe_mru _ _ _ _ _ Hwf P1) as (Hlt & Hp0 & Hv & Ht & Hother).
  set (base := set_base s address1) in *. set (t := touched_lane s address1) in *.
  pose proof (probe_same_geometry _ _ _ _ _ P1) as G1.
  pose proof (probe_same_geometry _ _ _ _ _ P2) as G2.
  destruct (same_geometry_decode s1 s address2 G1) as (_ & Eb2 & El1).
  destruct (same_geometry_decode s2 s1 address1 G2) as (Et21 & Eb21 & El21).
  destruct (same_geometry_decode s1 s address1 G1) as (Et1 & Eb1 & _).
  assert (Hbase2 : set_base s1 address2 = base) by (rewrite Eb2; exact Hsame).
  apply resident_spec. rewrite Et21, Eb21, El21, Et1, Eb1, El1. fold base.
  exists t. split; [exact Hlt|].
  destruct out2 as [[|] wb2].
  - destruct (probe_hit_shape _ _ _ _ _ P2) as (_ & _ & _ & _ & -> & -> & _).
    tauto.
  - pose proof (wf_set_in_bounds s1 address2 Hwf1) as Hb1.
    destruct (probe_miss_shape _ _ _ _ _ Hb1 P2) as (Hlt2 & -> & _ & -> & _).
    rewrite Hbase2.
    assert (Hne : touched_lane s1 address2 <> t).
    { intros Heq.
      destruct (touched_lane_miss _ _ _ _ _ Hb1 P2) as [Hinv|Hmax].
      - rewrite Hbase2, Heq in Hinv. congruence.
      - rewrite Hbase2, Heq, El1 in Hmax.
        set (j := if Nat.eq_dec t 0%nat then 1%nat else 0%nat).
        assert (Hj : (j < lanes s)%nat /\ j <> t)
          by (unfold j; destruct (Nat.eq_dec t 0%nat); lia).
        specialize (Hmax j ltac:(tauto)).
        specialize (Hother j ltac:(tauto) ltac:(tauto)). lia. }
    rewrite !list_lookup_total_insert_ne by lia. tauto.
Qed.

(** ** Tags are unique within a set *)

Lemma slot_eq k k0 i t L :
  (i < L)%nat -> (t < L)%nat -> (k * L + i = k0 * L + t)%nat ->
  k = k0 /\ i = t.
Proof. intros Hi Ht H. assert (k = k0) by nia. subst. lia. Qed.

Lemma unique_tags_probe s type address s' out :
  wf s -> unique_tags s -> probe s type address = (s', out) ->
  unique_tags s'.
Proof.
  intros Hwf Hu H.
  destruct (same_geometry_decode s' s address (probe_same_geometry _ _ _ _ _ H))
    as (_ & _ & El).
  destruct (probe_writes _ _ _ _ _ H) as (_ & _ & _ & _ & Lv & _).
  pose proof (wf_set_in_bounds s address Hwf) as Hb.
  destruct (set_base_wf s address Hwf) as (k0 & Hk0 & _).
  unfold unique_tags. rewrite El, Lv.
  destruct out as [[|] wb].
  - destruct (probe_hit_shape _ _ _ _ _ H) as (_ & _ & _ & _ & -> & -> & _).
    exact Hu.
  - destruct (probe_miss_shape _ _ _ _ _ Hb H) as (Hlt & -> & _ & -> & Hno).
    destruct Hb as (_ & Hlt' & _ & Hlv & _).
    rewrite Hk0 in *. set (t := touched_lane s address) in *.
    intros k i j Hk Hi Hj Hvi Hvj Heq.
    destruct (Nat.eq_dec (k * lanes s + i)%nat (k0 * lanes s + t)%nat)
      as [Ei|Ni];
      destruct (Nat.eq_dec (k * lanes s + j)%nat (k0 * lanes s + t)%nat)
        as [Ej|Nj].
    + apply slot_eq in Ei, Ej; try assumption. lia.
    + apply slot_eq in Ei; try assumption. destruct Ei as [-> ->].
      rewrite list_lookup_total_insert_eq in Heq by lia.
      rewrite list_lookup_total_insert_ne in Heq by lia.
      rewrite list_lookup_total_insert_ne in Hvj by lia.
      exfalso. exact (Hno j Hj Hvj (eq_sym Heq)).
    + apply slot_eq in Ej; try assumption. destruct Ej as [-> ->].
      rewrite (list_lookup_total_insert_ne _ _ (k0 * lanes s + i)%nat) in Heq
        by lia.
      rewrite list_lookup_total_insert_eq in Heq by lia.
      rewrite list_lookup_total_insert_ne in Hvi by lia.
      exfalso. exact (Hno i Hi Hvi Heq).
    + rewrite !list_lookup_total_insert_ne in Heq by lia.
      rewrite list_lookup_total_insert_ne in Hvi, Hvj by lia.
      exact (Hu k i j Hk Hi Hj Hvi Hvj Heq).
Qed.

(** X12. Through any run on a configuration whose sets fit, no two valid
    lines of one set hold the same tag, so a hit is never ambiguous. *)
Theorem run_unique_tags bs a c mp wbp s0 trace :
  fits_config bs a c = true ->
  CacheSim_new bs a c mp wbp = Some s0 ->
  unique_tags (run s0 trace).
Proof.
  intros Hcfg Hnew.
  pose proof (wf_new _ _ _ _ _ _ Hcfg Hnew) as Hwf0.
  assert (Hu0 : unique_tags s0).
  { destruct (CacheSim_new_fields _ _ _ _ _ _ Hnew)
      as (_ & _ & _ & _ & _ & _ & _ & _ & _ & _ & _ & _ & Ev & _).
    intros k i j Hk Hi Hj Hvi _ _. rewrite Ev in *.
    rewrite length_replicate in Hk.
    rewrite lookup_total_replicate_2 in Hvi by lia. discriminate. }
  clear Hcfg Hnew. revert s0 Hwf0 Hu0.
  induction trace as [|[[ty ad] ins] trace IH]; intros s Hwf Hu; [exact Hu|].
  rewrite run_cons, step_eq. simpl.
  destruct (probe s ty ad) as [s' [hit wb]] eqn:E. simpl.
  apply IH.
  - apply wf_update_stats. exact (wf_probe _ _ _ _ _ Hwf E).
  - exact (unique_tags_probe _ _ _ _ _ Hwf Hu E).
Qed.

(** ** The counters of a run and its report *)

Lemma count_writes_range trace :
  0 <= count_writes trace <= Z.of_nat (length trace).
Proof.
  induction trace as [|x trace IH]; simpl; [lia|].
  destruct (is_write x); simpl; lia.
Qed.

Lemma count_misses_range outs :
  0 <= count_misses outs <= Z.of_nat (length outs).
Proof.
  induction outs as [|o outs IH]; simpl; [lia|].
  destruct (fst o); simpl; lia.
Qed.

Lemma outcomes_length trace : forall s,
  length (outcomes s trace) = length trace.
Proof.
  induction trace as [|x trace IH]; intros s; simpl; [reflexivity|].
  now rewrite IH.
Qed.

(** The three event counters after a run, as long as they stay within
    [std::int64_t]. *)
Lemma run_counters trace : forall s,
  0 <= mem_accesses_ s -> 0 <= writes_ s -> 0 <= misses_ s ->
  mem_accesses_ s + Z.of_nat (length trace) < 2 ^ 63 ->
  writes_ s + Z.of_nat (length trace) < 2 ^ 63 ->
  misses_ s + Z.of_nat (length trace) < 2 ^ 63 ->
  mem_accesses_ (run s trace) = mem_accesses_ s + Z.of_nat (length trace)
  /\ writes_ (run s trace) = writes_ s + count_writes trace
  /\ misses_ (run s trace) = misses_ s + count_misses (outcomes s trace).
Proof.
  induction trace as [|[[ty ad] ins] trace IH];
    intros s Hm Hw Hmi Bm Bw Bmi.
  - simpl. lia.
  - rewrite run_cons, outcomes_cons, step_eq.
    destruct (probe s ty ad) as [s' [hit wb]] eqn:E.
    destruct (probe_stats _ _ _ _ _ E) as (Ew & Ea & Em & _ & _).
    simpl fst. simpl snd. simpl length in *.
    set (s1 := update_stats s' ins ty hit wb).
    assert (E1 : mem_accesses_ s1 = mem_accesses_ s + 1)
      by (simpl; rewrite Ea; apply i64_small; unfold is_i64; lia).
    assert (E2 : writes_ s1 = writes_ s + Z.b2z ty)
      by (simpl; rewrite Ew; apply i64_small; unfold is_i64;
          destruct ty; simpl; lia).
    assert (E3 : misses_ s1 = misses_ s + Z.b2z (negb hit))
      by (simpl; rewrite Em; apply i64_small; unfold is_i64;
          destruct hit; simpl; lia).
    destruct (IH s1) as (R1 & R2 & R3);
      try (rewrite ?E1, ?E2, ?E3; destruct ty, hit; simpl; lia).
    rewrite R1, R2, R3, E1, E2, E3.
    unfold count_writes, count_misses, is_write. simpl. lia.
Qed.

(** The instruction counter after a run of non-negative counts whose total
    stays within [std::int64_t]. *)
Lemma run_instructions trace : forall s,
  Forall (fun x => 0 <= instructions_of x) trace ->
  0 <= instructions_ s ->
  instructions_ s + total_instructions trace < 2 ^ 63 ->
  instructions_ (run s trace) = instructions_ s + total_instructions trace.
Proof.
  induction trace as [|[[ty ad] ins] trace IH]; intros s Hall H0 Hb.
  - simpl. lia.
  - apply Forall_cons in Hall. destruct Hall as [Hins Hall].
    unfold instructions_of in Hins. simpl in Hins.
    assert (Ht : 0 <= total_instructions trace).
    { clear -Hall. induction Hall as [|x l Hx _ IHl]; simpl; lia. }
    change (total_instructions ((ty, ad, ins) :: trace))
      with (ins + total_instructions trace) in *.
    rewrite run_cons, step_eq.
    destruct (probe s ty ad) as [s' [hit wb]] eqn:E.
    destruct (probe_stats _ _ _ _ _ E) as (_ & _ & _ & _ & Ei).
    simpl fst.
    set (s1 := update_stats s' ins ty hit wb).
    assert (E1 : instructions_ s1 = instructions_ s + ins)
      by (simpl; rewrite Ei; apply i64_small; unfold is_i64; lia).
    rewrite (IH s1 Hall) by (rewrite E1; lia). rewrite E1. lia.
Qed.

(** X13. The report of a whole run from a fresh simulator counts the trace:
    total accesses is its length, writes its write records, reads the rest,
    misses the probes that missed, hits the rest, instructions the sum of the
    instruction counts (non-negative, the totals within [std::int64_t]).
    Misses never exceed accesses. *)
Theorem report_counts_trace bs a c mp wbp s0 trace :
  CacheSim_new bs a c mp wbp = Some s0 ->
  Z.of_nat (length trace) < 2 ^ 63 ->
  Forall (fun x => 0 <= instructions_of x) trace ->
  total_instructions trace < 2 ^ 63 ->
  let r := dump_stats (run s0 trace) in
  r_total_accesses r = Z.of_nat (length trace)
  /\ r_writes r = count_writes trace
  /\ r_reads r = Z.of_nat (length trace) - count_writes trace
  /\ r_misses r = count_misses (outcomes s0 trace)
  /\ r_hits r = Z.of_nat (length trace) - count_misses (outcomes s0 trace)
  /\ r_instructions r = total_instructions trace
  /\ 0 <= r_misses r <= r_total_accesses r.
Proof.
  intros Hnew Hlen Hins Htot r.
  destruct (CacheSim_new_fields _ _ _ _ _ _ Hnew)
    as (_ & _ & _ & _ & _ & _ & _ & _ & _ & _ & _ & _ & _ & _
        & Ew & Ea & Em & _ & Ei).
  destruct (run_counters trace s0) as (R1 & R2 & R3);
    try (rewrite ?Ew, ?Ea, ?Em; lia).
  pose proof (run_instructions trace s0 Hins ltac:(lia) ltac:(lia)) as R4.
  rewrite Ea in R1. rewrite Ew in R2. rewrite Em in R3. rewrite Ei in R4.
  simpl in R1, R2, R3, R4.
  pose proof (count_writes_range trace) as Hw.
  pose proof (count_misses_range (outcomes s0 trace)) as Hm.
  rewrite outcomes_length in Hm.
  subst r. unfold dump_stats. simpl. rewrite R1, R2, R3, R4.
  rewrite !i64_small by (unfold is_i64; lia). repeat split; lia.
Qed.

(** ** Blocks and their decoding *)

(** A number is its high part and its low [k] bits. *)
Lemma high_low_determine X Y k :
  0 <= k ->
  Z.shiftr X k = Z.shiftr Y k ->
  Z.land X (2 ^ k - 1) = Z.land Y (2 ^ k - 1) ->
  X = Y.
Proof.
  intros Hk Hhi Hlo.
  replace (2 ^ k - 1) with (Z.ones k) in Hlo by (rewrite Z.ones_equiv; lia).
  rewrite !Z.land_ones in Hlo by assumption.
  rewrite !Z.shiftr_div_pow2 in Hhi by assumption.
  rewrite (Z.div_mod X (2 ^ k)), (Z.div_mod Y (2 ^ k)) by lia.
  now rewrite Hhi, Hlo.
Qed.

(** X14. On a power-of-two geometry two addresses decode to the same tag and
    the same set exactly when they lie in the same block: same quotient by
    the block size. *)
Theorem same_block_iff bs a c mp wbp s x y :
  is_u32 bs -> is_u32 a -> is_u32 c ->
  CacheSim_new bs a c mp wbp = Some s ->
  is_pow2 bs = true -> is_pow2 (sets_of bs a c) = true ->
  (get_tag s x = get_tag s y /\ get_set s x = get_set s y) <-> x / bs = y / bs.
Proof.
  intros Hbs Ha Hc Hnew Hpb Hps.
  pose proof (pow2_geometry _ _ _ _ _ _ Hbs Ha Hc Hnew Hpb Hps) as Hgeo.
  destruct (get_set_pow2 _ _ _ _ _ _ x Hbs Ha Hc Hnew Hpb Hps) as [Hx _].
  destruct (get_set_pow2 _ _ _ _ _ _ y Hbs Ha Hc Hnew Hpb Hps) as [Hy _].
  cbv zeta in Hgeo.
  set (b := Z.log2 bs) in *. set (k := Z.log2 (sets_of bs a c)) in *.
  destruct Hgeo as (Hb & Hk & Eb & Ek & Hso & Hto & Hsm).
  assert (Hdx : x / bs = Z.shiftr x b)
    by (rewrite Z.shiftr_div_pow2 by lia; now rewrite <- Eb).
  assert (Hdy : y / bs = Z.shiftr y b)
    by (rewrite Z.shiftr_div_pow2 by lia; now rewrite <- Eb).
  assert (Htx : get_tag s x = Z.shiftr (Z.shiftr x b) k)
    by (unfold get_tag; rewrite Hto, Z.shiftr_shiftr by lia; reflexivity).
  assert (Hty : get_tag s y = Z.shiftr (Z.shiftr y b) k)
    by (unfold get_tag; rewrite Hto, Z.shiftr_shiftr by lia; reflexivity).
  rewrite Hdx, Hdy, Htx, Hty, Hx, Hy, Ek. split.
  - intros [Hhi Hlo]. apply (high_low_determine _ _ k); [lia|exact Hhi|exact Hlo].
  - intros ->. split; reflexivity.
Qed.

(** ** The first write-back *)

(** Where a fill of a filled set writes. *)
Lemma probe_fill_dirty s type address filled s' out :
  0 < associativity s < 2 ^ 31 ->
  filled_set s (set_base s address) filled ->
  (length filled < lanes s)%nat ->
  get_tag s address ∉ filled ->
  probe s type address = (s', out) ->
  dirty s' =
    <[(set_base s address + (lanes s - length filled - 1))%nat := type]>
      (dirty s).
Proof.
  intros Ha Hfs Hk Hnew H.
  destruct (probe_fill s type address filled Ha Hfs Hk Hnew)
    as (s1 & H1 & Hfs1).
  rewrite H in H1. inversion H1; subst s1 out; clear H1.
  assert (Hb : set_in_bounds s address).
  { destruct Hfs as [_ Ht Hd Hv Hp _ _]. unfold set_in_bounds.
    repeat split; try assumption. lia. }
  destruct (probe_miss_shape _ _ _ _ _ Hb H) as (Hlt & _ & -> & Hvalid & _).
  set (base := set_base s address) in *. set (t := touched_lane s address) in *.
  set (n := lanes s) in *. set (k := length filled) in *.
  assert (El : lanes s' = n).
  { destruct (same_geometry_decode s' s address
                (probe_same_geometry _ _ _ _ _ H)) as (_ & _ & El). exact El. }
  assert (Hwarm : valid s' !!! (base + (n - k - 1))%nat = true).
  { destruct (fs_warm _ _ _ Hfs1 (n - k - 1)%nat) as (Hv & _); [|exact Hv].
    rewrite El, length_app. simpl. fold k. lia. }
  destruct (fs_cold _ _ _ Hfs (n - k - 1)%nat ltac:(fold n k; lia))
    as (Hcold & _).
  fold base n k in Hcold.
  destruct (Nat.eq_dec t (n - k - 1)%nat) as [->|Hne]; [reflexivity|].
  rewrite Hvalid, list_lookup_total_insert_ne in Hwarm by lia. congruence.
Qed.

(** Later fills leave the dirty flag of the first filled lane alone. *)
Lemma run_fills_keep_dirty s0 base trace : forall s filled,
  0 < associativity s0 < 2 ^ 31 ->
  same_geometry s s0 ->
  filled_set s base filled ->
  (1 <= length filled)%nat ->
  (length filled + length trace <= lanes s0)%nat ->
  (forall x, x ∈ trace -> set_base s0 (addr_of x) = base) ->
  NoDup (filled ++ map (fun x => get_tag s0 (addr_of x)) trace) ->
  dirty (run s trace) !!! (base + (lanes s0 - 1))%nat
  = dirty s !!! (base + (lanes s0 - 1))%nat.
Proof.
  induction trace as [|x trace IH];
    intros s filled Ha Hgeo Hfs H1 Hlen Hset Hnd; [reflexivity|].
  destruct (same_geometry_decode s s0 (addr_of x) Hgeo) as (Etag & Ebase & El).
  assert (Hb : set_base s (addr_of x) = base)
    by (rewrite Ebase; apply Hset; left).
  assert (Hnew : get_tag s (addr_of x) ∉ filled).
  { rewrite Etag. simpl in Hnd. apply NoDup_app in Hnd.
    destruct Hnd as (_ & Hdisj & _). intros Hin.
    apply (Hdisj _ Hin). left. }
  assert (Ha' : 0 < associativity s < 2 ^ 31)
    by (destruct Hgeo as (-> & _); exact Ha).
  simpl in Hlen.
  destruct x as [[type address] instructions]. unfold addr_of in *.
  simpl in Etag, Ebase, Hb, Hnew.
  rewrite <- Hb in Hfs.
  destruct (probe_fill s type address filled Ha' Hfs ltac:(lia) Hnew)
    as (s' & Hprobe & Hfs').
  pose proof (probe_fill_dirty s type address filled s' _ Ha' Hfs ltac:(lia)
                Hnew Hprobe) as Hd.
  pose proof (same_geometry_step s s0 (type, address, instructions) Hgeo)
    as Hgeo'.
  assert (Hstep : step s (type, address, instructions) =
                  (update_stats s' instructions type false false,
                   (false, false)))
    by (rewrite step_eq, Hprobe; reflexivity).
  rewrite Hstep in Hgeo'. simpl in Hgeo'.
  rewrite Hb, Etag in Hfs'.
  apply (filled_set_update_stats _ _ _ instructions type false false) in Hfs'.
  rewrite run_cons, Hstep. simpl fst.
  rewrite (IH _ _ Ha Hgeo' Hfs').
  - simpl. rewrite Hd, Hb, El. apply list_lookup_total_insert_ne. lia.
  - rewrite length_app. simpl. lia.
  - rewrite length_app. simpl. lia.
  - intros y Hy. apply Hset. now right.
  - rewrite <- app_assoc. exact Hnd.
Qed.

(** X15. The first eviction writes back exactly what the first access wrote:
    on a valid configuration of associativity A, probing A + 1 addresses of
    one set with pairwise distinct tags from the fresh cache gives A cold
    misses without write-back, then a miss whose write-back flag is the kind
    of the first access (set for a write, clear for a read). *)
Theorem first_eviction_writeback bs a c mp wbp s0 (trace : list access) :
  valid_config bs a c = true ->
  CacheSim_new bs a c mp wbp = Some s0 ->
  length trace = S (lanes s0) ->
  (forall x y, x ∈ trace -> y ∈ trace ->
               get_set s0 (addr_of x) = get_set s0 (addr_of y)) ->
  NoDup (map (fun x => get_tag s0 (addr_of x)) trace) ->
  outcomes s0 trace =
    replicate (lanes s0) (false, false)
    ++ [(false, is_write (trace !!! 0%nat))].
Proof.
  intros Hcfg Hnew Hlen Hsame Hnd.
  remember (lanes s0) as A eqn:EA.
  set (tagf := fun x : access => get_tag s0 (addr_of x)) in *.
  set (base := set_base s0 (addr_of (trace !!! 0%nat))).
  destruct (valid_config_facts _ _ _ Hcfg)
    as (_ & _ & _ & _ & Ha0 & _ & _ & _).
  destruct (CacheSim_new_fields _ _ _ _ _ _ Hnew) as (_ & _ & _ & Hassoc & _).
  assert (Hassoc0 : 0 < associativity s0 < 2 ^ 31) by (rewrite Hassoc; lia).
  assert (HA : (0 < A)%nat) by (rewrite EA; unfold lanes; lia).
  assert (Hin : forall i, (i < length trace)%nat -> trace !!! i ∈ trace)
    by (intros i Hi; now apply list_elem_of_lookup_total_2).
  assert (Hbase : forall x, x ∈ trace -> set_base s0 (addr_of x) = base).
  { intros x Hx. unfold base, set_base.
    now rewrite (Hsame x (trace !!! 0%nat) Hx (Hin 0%nat ltac:(lia))). }
  pose proof (fresh_filled_set _ _ _ _ _ _ (addr_of (trace !!! 0%nat))
                Hcfg Hnew) as Hfs0.
  fold base in Hfs0.
  (* the trace is a first access, A - 1 more fills and a last access *)
  destruct trace as [|first trace']; [simpl in Hlen; lia|].
  change ((first :: trace') !!! 0%nat) with first in *.
  pose proof (split_last (first :: trace') A Hlen) as Hsplit.
  set (final := (first :: trace') !!! A) in *.
  replace (take A (first :: trace')) with (first :: take (A - 1) trace')
    in Hsplit by (destruct A; [lia|simpl; now rewrite Nat.sub_0_r]).
  set (rest := take (A - 1) trace') in *.
  assert (Hlrest : length rest = (A - 1)%nat)
    by (unfold rest; rewrite length_take; simpl in Hlen; lia).
  assert (Hnd' : NoDup ((tagf first :: map tagf rest) ++ [tagf final])).
  { rewrite Hsplit in Hnd. simpl in Hnd. rewrite map_app in Hnd. exact Hnd. }
  assert (Hmem : forall x, x ∈ first :: rest -> x ∈ first :: trace').
  { intros x Hx. rewrite Hsplit.
    change (first :: rest ++ [final]) with ((first :: rest) ++ [final]).
    apply elem_of_app. now left. }
  (* the A fills *)
  destruct (run_fills s0 base (first :: rest) s0 [] Hassoc0
              (fresh_same_geometry s0) Hfs0)
    as (Hgeo & Hfs & Hout).
  { simpl. lia. }
  { intros x Hx. apply Hbase, Hmem, Hx. }
  { simpl. apply NoDup_app in Hnd'. tauto. }
  simpl app in Hfs. fold tagf in Hfs. set (before := run s0 (first :: rest)) in *.
  assert (Hlb : lanes before = A)
    by (destruct Hgeo as (Hg & _); rewrite EA; unfold lanes; now rewrite Hg).
  (* the dirty flag of the lane filled first *)
  assert (Hd : dirty before !!! (base + (A - 1))%nat = is_write first).
  { destruct first as [[ty0 ad0] ins0]. unfold is_write. simpl.
    assert (Hb0 : set_base s0 ad0 = base)
      by (apply (Hbase (ty0, ad0, ins0)); left).
    rewrite <- Hb0 in Hfs0.
    assert (Hnew0 : get_tag s0 ad0 ∉ @nil Z) by apply not_elem_of_nil.
    destruct (probe_fill s0 ty0 ad0 [] Hassoc0 Hfs0 ltac:(simpl; lia) Hnew0)
      as (s1 & Hp1 & Hfs1).
    pose proof (probe_fill_dirty s0 ty0 ad0 [] s1 _ Hassoc0 Hfs0
                  ltac:(simpl; lia) Hnew0 Hp1) as Hd1.
    pose proof (same_geometry_step s0 s0 (ty0, ad0, ins0)
                  (fresh_same_geometry s0)) as Hgeo1.
    assert (Hstep : step s0 (ty0, ad0, ins0) =
                    (update_stats s1 ins0 ty0 false false, (false, false)))
      by (rewrite step_eq, Hp1; reflexivity).
    rewrite Hstep in Hgeo1. simpl in Hgeo1.
    simpl app in Hfs1. rewrite Hb0 in Hfs1.
    apply (filled_set_update_stats _ _ _ ins0 ty0 false false) in Hfs1.
    unfold before. rewrite run_cons, Hstep. simpl fst. rewrite EA.
    rewrite (run_fills_keep_dirty s0 base rest _ [get_tag s0 ad0]
               Hassoc0 Hgeo1 Hfs1).
    - simpl. rewrite Hd1, Hb0. simpl.
      rewrite Nat.sub_0_r.
      apply list_lookup_total_insert_eq.
      pose proof (fs_dirty _ _ _ Hfs0) as Hfd. rewrite Hb0 in Hfd. lia.
    - simpl. lia.
    - simpl. lia.
    - intros x Hx. apply Hbase, Hmem. now right.
    - apply NoDup_app in Hnd'. unfold tagf, addr_of in Hnd'. simpl in Hnd'.
      tauto. }
  (* the eviction *)
  assert (Hfinal : final ∈ first :: trace') by (apply Hin; lia).
  destruct (same_geometry_decode before s0 (addr_of final) Hgeo)
    as (Htf & Hbf & _).
  rewrite (Hbase final Hfinal) in Hbf.
  destruct final as [[type address] instructions] eqn:Efinal.
  unfold addr_of in Htf, Hbf. simpl in Htf, Hbf.
  destruct (probe_evict_oldest before type address (tagf first :: map tagf rest))
    as (s' & Hprobe & _).
  { destruct Hgeo as (-> & _). exact Hassoc0. }
  { rewrite Hbf. exact Hfs. }
  { rewrite Hlb. simpl. rewrite length_map. lia. }
  { rewrite Htf. apply NoDup_app in Hnd'. destruct Hnd' as (_ & Hdisj & _).
    intros Hin'. apply (Hdisj _ Hin'). left. }
  rewrite Hbf, Hlb, Hd in Hprobe.
  rewrite Hsplit.
  change (first :: rest ++ [(type, address, instructions)])
    with ((first :: rest) ++ [(type, address, instructions)]).
  assert (Hlast : outcomes before [(type, address, instructions)] =
                  [(false, is_write first)])
    by (rewrite outcomes_cons, step_eq, Hprobe; reflexivity).
  rewrite outcomes_app. fold before. rewrite Hlast.
  f_equal. symmetry. apply replicate_as_Forall. split.
  - rewrite outcomes_length. simpl. lia.
  - eapply Forall_impl; [exact Hout|]. intros o ->. reflexivity.
Qed.

(** ** One lane per set *)

(** X16. In a direct-mapped cache (one lane per set) two addresses of the same
    set with different tags displace each other: probed one after the other,
    the second probe misses and the first address is no longer resident. So
    the two-lane condition of the survival of the touched line is needed. *)
Theorem direct_mapped_conflict s type1 address1 s1 out1 type2 address2 s2 out2 :
  wf s -> lanes s = 1%nat ->
  probe s type1 address1 = (s1, out1) ->
  set_base s address2 = set_base s address1 ->
  get_tag s address2 <> get_tag s address1 ->
  probe s1 type2 address2 = (s2, out2) ->
  fst out2 = false /\ resident s2 address1 = false.
Proof.
  intros Hwf H1 P1 Hsame Hdiff P2.
  pose proof (wf_probe _ _ _ _ _ Hwf P1) as Hwf1.
  destruct (probe_mru _ _ _ _ _ Hwf P1) as (Hlt & _ & Hv & Ht & _).
  assert (Et : touched_lane s address1 = 0%nat) by lia.
  rewrite Et in Hv, Ht. clear Hlt Et.
  pose proof (probe_same_geometry _ _ _ _ _ P1) as G1.
  pose proof (probe_same_geometry _ _ _ _ _ P2) as G2.
  destruct (same_geometry_decode s1 s address2 G1) as (Et12 & Eb12 & El1).
  destruct (same_geometry_decode s1 s address1 G1) as (Et11 & Eb11 & _).
  destruct (same_geometry_decode s2 s1 address1 G2) as (Et21 & Eb21 & El2).
  destruct out2 as [hit2 wb2]. simpl.
  assert (Hmiss : hit2 = false).
  { pose proof (probe_hit_resident s1 type2 address2) as Hh.
    rewrite P2 in Hh. simpl in Hh. rewrite Hh.
    destruct (resident s1 address2) eqn:R; [|reflexivity].
    apply resident_spec in R. destruct R as (i & Hi & _ & Hti).
    rewrite El1, H1 in Hi. assert (i = 0%nat) by lia. subst i.
    rewrite Eb12, Hsame, Et12 in Hti. congruence. }
  subst hit2. split; [reflexivity|].
  pose proof (wf_set_in_bounds s1 address2 Hwf1) as Hb1.
  destruct (probe_touched_line _ _ _ _ _ _ Hb1 P2) as (_ & Ht2 & _).
  assert (Et2 : touched_lane s1 address2 = 0%nat).
  { pose proof (touched_lane_lt s1 address2 ltac:(rewrite El1; lia)). lia. }
  rewrite Et2, Eb12, Hsame, Et12 in Ht2.
  destruct (resident s2 address1) eqn:R; [|reflexivity].
  apply resident_spec in R. destruct R as (i & Hi & _ & Hti).
  rewrite El2, El1, H1 in Hi. assert (i = 0%nat) by lia. subst i.
  rewrite Eb21, Eb11, Et21, Et11 in Hti. congruence.
Qed.

(** ** Lines come from the trace *)

Lemma from_trace_probe s0 s T type address instructions s' out :
  wf s -> same_geometry s s0 -> from_trace s0 s T ->
  probe s type address = (s', out) ->
  from_trace s0 s' (T ++ [(type, address, instructions)]).
Proof.
  intros Hwf Hgeo Hinv H j Hj.
  destruct (same_geometry_decode s s0 address Hgeo) as (Etag & Ebase & El).
  pose proof (wf_set_in_bounds s address Hwf) as Hb.
  assert (Hold : valid s !! j = Some true -> tags s' !! j = tags s !! j ->
            exists x, x ∈ T ++ [(type, address, instructions)]
              /\ (set_base s0 (addr_of x) <= j
                  < set_base s0 (addr_of x) + lanes s0)%nat
              /\ tags s' !! j = Some (get_tag s0 (addr_of x))).
  { intros Hv Ht. destruct (Hinv j Hv) as (x & Hx & Hr & Hx').
    exists x. rewrite Ht. repeat split; try tauto.
    apply elem_of_app. now left. }
  destruct out as [[|] wb].
  - destruct (probe_hit_shape _ _ _ _ _ H) as (_ & _ & _ & _ & Et & Ev & _).
    rewrite Ev in Hj. apply Hold; [exact Hj|now rewrite Et].
  - destruct (probe_miss_shape _ _ _ _ _ Hb H) as (Hlt & Et & _ & Ev & _).
    destruct Hb as (_ & Hlt' & _).
    destruct (Nat.eq_dec j (set_base s address + touched_lane s address)%nat)
      as [->|Hne].
    + exists (type, address, instructions). unfold addr_of. simpl.
      split; [apply elem_of_app; right; now left|].
      rewrite <- Ebase, <- El, <- Etag. split; [lia|].
      rewrite Et. apply list_lookup_insert_eq. lia.
    + rewrite Ev, list_lookup_insert_ne in Hj by lia.
      apply Hold; [exact Hj|].
      rewrite Et. apply list_lookup_insert_ne. lia.
Qed.

Lemma from_trace_run s0 trace : forall s T,
  wf s -> same_geometry s s0 -> from_trace s0 s T ->
  from_trace s0 (run s trace) (T ++ trace).
Proof.
  induction trace as [|[[ty ad] ins] trace IH]; intros s T Hwf Hgeo Hinv.
  - simpl. now rewrite app_nil_r.
  - rewrite run_cons.
    replace (T ++ (ty, ad, ins) :: trace) with ((T ++ [(ty, ad, ins)]) ++ trace)
      by (now rewrite <- app_assoc).
    apply IH.
    + now apply wf_step.
    + now apply same_geometry_step.
    + rewrite step_eq. simpl.
      destruct (probe s ty ad) as [s' out] eqn:E. simpl.
      exact (from_trace_probe s0 s T ty ad ins s' out Hwf Hgeo Hinv E).
Qed.

(** X17. A probe hits only a block the trace touched before: after any run
    from the fresh cache, a hit on an address means an earlier access of the
    trace had the same tag and the same set. First references always miss. *)
Theorem hit_needs_earlier_access bs a c mp wbp s0 trace type address :
  fits_config bs a c = true ->
  CacheSim_new bs a c mp wbp = Some s0 ->
  fst (snd (probe (run s0 trace) type address)) = true ->
  exists x, x ∈ trace
    /\ get_tag s0 (addr_of x) = get_tag s0 address
    /\ set_base s0 (addr_of x) = set_base s0 address.
Proof.
  intros Hcfg Hnew Hhit.
  pose proof (wf_new _ _ _ _ _ _ Hcfg Hnew) as Hwf0.
  pose proof (wf_run trace s0 Hwf0) as Hwf.
  assert (Hinv0 : from_trace s0 s0 []).
  { destruct (CacheSim_new_fields _ _ _ _ _ _ Hnew)
      as (_ & _ & _ & _ & _ & _ & _ & _ & _ & _ & _ & _ & Ev & _).
    intros j Hj. rewrite Ev in Hj. apply lookup_replicate in Hj.
    destruct Hj as [Hj _]. discriminate. }
  pose proof (from_trace_run s0 trace s0 [] Hwf0 (fresh_same_geometry s0) Hinv0)
    as Hinv. simpl in Hinv.
  assert (Hgeo : same_geometry (run s0 trace) s0).
  { clear -s0. generalize (fresh_same_geometry s0).
    generalize s0 at 1 3. induction trace as [|x tr IH]; intros s Hs; [exact Hs|].
    rewrite run_cons. apply IH. now apply same_geometry_step. }
  destruct (same_geometry_decode _ s0 address Hgeo) as (Etag & Ebase & El).
  rewrite probe_hit_resident in Hhit. apply resident_spec in Hhit.
  destruct Hhit as (i & Hi & Hv & Ht). rewrite Etag, Ebase, El in *.
  destruct (wf_set_in_bounds _ address Hwf) as (_ & Hlt & _ & Hlv & _).
  rewrite Ebase, El in Hlt, Hlv.
  assert (Hv' : valid (run s0 trace) !! (set_base s0 address + i)%nat
                = Some true)
    by (rewrite list_lookup_lookup_total_lt by lia; now rewrite Hv).
  destruct (Hinv _ Hv') as (x & Hx & Hr & Hx').
  rewrite list_lookup_lookup_total_lt in Hx' by lia.
  exists x. split; [exact Hx|]. split; [congruence|].
  destruct (set_base_wf s0 (addr_of x) Hwf0) as (kx & Ekx & _).
  destruct (set_base_wf s0 address Hwf0) as (ka & Eka & _).
  rewrite Ekx, Eka in *. assert (kx = ka) by nia. now subst.
Qed.

(** ** The further properties at concrete inputs *)

Lemma odd_fresh_new : CacheSim_new 24 1 16384 30 2 = Some odd_fresh.
Proof. vm_compute. reflexivity. Qed.

Lemma wf_two_way_full : wf two_way_full.
Proof.
  apply wf_run. exact (wf_new 16 2 64 30 2 _ eq_refl two_way_fresh_new).
Qed.

Lemma wf_direct_fresh : wf direct_fresh.
Proof. exact (wf_new 16 1 16384 30 2 _ eq_refl direct_fresh_new). Qed.

(** The sets of the 682-set geometry stay inside the vectors. *)
Lemma run_stays_in_bounds_witness :
  fits_config 24 1 16384 = true
  /\ is_pow2 24 = false
  /\ set_in_bounds (run odd_fresh scenario_trace) 0xFFFFFFFFFFFFFFFF
  /\ length (tags (run odd_fresh scenario_trace)) = Z.to_nat (16384 / 24).
Proof.
  split; [reflexivity|]. split; [reflexivity|].
  destruct (run_stays_in_bounds 24 1 16384 30 2 odd_fresh scenario_trace
              0xFFFFFFFFFFFFFFFF eq_refl odd_fresh_new) as (Hb & Ht & _).
  split; [exact Hb|exact Ht].
Defined.

Lemma run_priority_range_witness :
  fits_config 16 2 64 = true
  /\ Forall (fun p => 0 <= p <= 2)
       (priority (run two_way_fresh three_tags_trace)).
Proof.
  split; [reflexivity|].
  exact (run_priority_range 16 2 64 30 2 two_way_fresh three_tags_trace
           eq_refl two_way_fresh_new).
Defined.

Lemma probe_hits_iff_resident_witness :
  set_in_bounds two_way_full 0x40
  /\ snd (probe two_way_full false 0x40) = (true, false)
  /\ exists i, (i < lanes two_way_full)%nat
       /\ valid two_way_full !!! (set_base two_way_full 0x40 + i)%nat = true
       /\ tags two_way_full !!! (set_base two_way_full 0x40 + i)%nat
          = get_tag two_way_full 0x40.
Proof.
  assert (Hb : set_in_bounds two_way_full 0x40)
    by (vm_compute; repeat split; lia).
  split; [exact Hb|]. split; [vm_compute; reflexivity|].
  assert (Hp : probe two_way_full false 0x40 =
               (fst (probe two_way_full false 0x40), (true, false)))
    by (vm_compute; reflexivity).
  exact (proj1 (probe_hits_iff_resident two_way_full false 0x40 _ true false
                  Hb Hp)
           eq_refl).
Defined.

Lemma probe_hit_effect_witness :
  set_in_bounds two_way_full 0x40
  /\ associativity two_way_full < 2 ^ 31
  /\ exists i, (i < lanes two_way_full)%nat
    /\ valid two_way_full !!! (set_base two_way_full 0x40 + i)%nat = true
    /\ tags two_way_full !!! (set_base two_way_full 0x40 + i)%nat
       = get_tag two_way_full 0x40
    /\ false = false
    /\ tags (fst (probe two_way_full true 0x40)) = tags two_way_full
    /\ valid (fst (probe two_way_full true 0x40)) = valid two_way_full
    /\ dirty (fst (probe two_way_full true 0x40)) =
         <[(set_base two_way_full 0x40 + i)%nat :=
             dirty two_way_full !!! (set_base two_way_full 0x40 + i)%nat
             || true]> (dirty two_way_full).
Proof.
  assert (Hb : set_in_bounds two_way_full 0x40)
    by (vm_compute; repeat split; lia).
  assert (Ha : associativity two_way_full < 2 ^ 31)
    by (vm_compute; reflexivity).
  assert (Hp : probe two_way_full true 0x40 =
               (fst (probe two_way_full true 0x40), (true, false)))
    by (vm_compute; reflexivity).
  split; [exact Hb|]. split; [exact Ha|].
  exact (probe_hit_effect two_way_full true 0x40 _ false Hb Ha Hp).
Defined.

Lemma probe_then_hit_witness :
  set_in_bounds two_way_fresh 0x80
  /\ associativity two_way_fresh < 2 ^ 31
  /\ resident (fst (probe two_way_fresh false 0x80)) 0x80 = true
  /\ snd (probe (fst (probe two_way_fresh false 0x80)) true 0x80)
     = (true, false).
Proof.
  assert (Hb : set_in_bounds two_way_fresh 0x80)
    by (vm_compute; repeat split; lia).
  assert (Ha : associativity two_way_fresh < 2 ^ 31) by reflexivity.
  split; [exact Hb|]. split; [exact Ha|].
  exact (probe_then_hit two_way_fresh false 0x80 _ _ true Hb Ha
           (surjective_pairing _)).
Defined.

Lemma cold_probe_misses_witness :
  fits_config 16 2 64 = true
  /\ snd (probe two_way_fresh true 0x1234) = (false, false).
Proof.
  split; [reflexivity|].
  exact (cold_probe_misses 16 2 64 30 2 two_way_fresh true 0x1234
           eq_refl two_way_fresh_new).
Defined.

Lemma run_valid_monotone_witness :
  wf two_way_full
  /\ valid two_way_full !! 1%nat = Some true
  /\ valid (run two_way_full three_tags_trace) !! 1%nat = Some true.
Proof.
  split; [exact wf_two_way_full|]. split; [reflexivity|].
  exact (run_valid_monotone three_tags_trace two_way_full 1%nat
           wf_two_way_full eq_refl).
Defined.

Lemma read_only_no_writeback_witness :
  Forall (fun x => is_write x = false) reads_trace
  /\ Forall (fun o => snd o = false) (outcomes two_way_fresh reads_trace)
  /\ Forall (fun d => d = false) (dirty (run two_way_fresh reads_trace)).
Proof.
  assert (Hr : Forall (fun x => is_write x = false) reads_trace)
    by (repeat constructor).
  split; [exact Hr|].
  exact (read_only_no_writeback 16 2 64 30 2 two_way_fresh reads_trace
           eq_refl two_way_fresh_new Hr).
Defined.

Lemma probe_single_slot_witness :
  set_in_bounds two_way_full 0x80
  /\ associativity two_way_full < 2 ^ 31
  /\ exists i, (i < lanes two_way_full)%nat
       /\ forall j, j <> (set_base two_way_full 0x80 + i)%nat ->
            tags (fst (probe two_way_full true 0x80)) !! j
            = tags two_way_full !! j
            /\ dirty (fst (probe two_way_full true 0x80)) !! j
               = dirty two_way_full !! j
            /\ valid (fst (probe two_way_full true 0x80)) !! j
               = valid two_way_full !! j.
Proof.
  assert (Hb : set_in_bounds two_way_full 0x80)
    by (vm_compute; repeat split; lia).
  assert (Ha : associativity two_way_full < 2 ^ 31)
    by (vm_compute; reflexivity).
  split; [exact Hb|]. split; [exact Ha|].
  exact (probe_single_slot two_way_full true 0x80 _ _ Hb Ha
           (surjective_pairing _)).
Defined.

Lemma probe_mru_unique_witness :
  exists t, (t < lanes two_way_full)%nat
    /\ valid (fst (probe two_way_full false 0x80))
         !!! (set_base two_way_full 0x80 + t)%nat = true
    /\ tags (fst (probe two_way_full false 0x80))
         !!! (set_base two_way_full 0x80 + t)%nat = get_tag two_way_full 0x80
    /\ forall j, (j < lanes two_way_full)%nat ->
         (priority (fst (probe two_way_full false 0x80))
            !!! (set_base two_way_full 0x80 + j)%nat = 0 <-> j = t).
Proof.
  exact (probe_mru_unique two_way_full false 0x80 _ _ wf_two_way_full
           (surjective_pairing _)).
Defined.

(** 0x80 then 0xC0 in the full set 0 of the two-way cache: 0x80 stays. *)
Lemma mru_survives_witness :
  (2 <= lanes two_way_full)%nat
  /\ set_base two_way_full 0xC0 = set_base two_way_full 0x80
  /\ resident (fst (probe (fst (probe two_way_full false 0x80)) false 0xC0))
       0x80 = true.
Proof.
  assert (Hn : (2 <= lanes two_way_full)%nat) by (vm_compute; lia).
  split; [exact Hn|]. split; [reflexivity|].
  exact (mru_survives two_way_full false 0x80 _ _ false 0xC0 _ _
           wf_two_way_full Hn (surjective_pairing _) eq_refl
           (surjective_pairing _)).
Defined.

Lemma run_unique_tags_witness :
  fits_config 16 2 64 = true
  /\ unique_tags (run two_way_fresh three_tags_trace).
Proof.
  split; [reflexivity|].
  exact (run_unique_tags 16 2 64 30 2 two_way_fresh three_tags_trace
           eq_refl two_way_fresh_new).
Defined.

Lemma report_counts_trace_witness :
  Z.of_nat (length scenario_trace) < 2 ^ 63
  /\ total_instructions scenario_trace < 2 ^ 63
  /\ r_total_accesses (dump_stats (run direct_fresh scenario_trace)) = 4
  /\ r_reads (dump_stats (run direct_fresh scenario_trace)) = 4 - 0
  /\ r_hits (dump_stats (run direct_fresh scenario_trace))
     = 4 - count_misses (outcomes direct_fresh scenario_trace).
Proof.
  assert (H1 : Z.of_nat (length scenario_trace) < 2 ^ 63)
    by (apply Z.ltb_lt; vm_compute; reflexivity).
  assert (H2 : total_instructions scenario_trace < 2 ^ 63)
    by (apply Z.ltb_lt; vm_compute; reflexivity).
  assert (H3 : Forall (fun x => 0 <= instructions_of x) scenario_trace)
    by (repeat constructor; unfold instructions_of; simpl; lia).
  split; [exact H1|]. split; [exact H2|].
  destruct (report_counts_trace 16 1 16384 30 2 direct_fresh scenario_trace
              direct_fresh_new H1 H3 H2) as (R1 & _ & R3 & _ & R5 & _).
  split; [exact R1|]. split; [exact R3|exact R5].
Defined.

Lemma same_block_iff_witness :
  0x41 / 16 = 0x4F / 16
  /\ get_tag two_way_fresh 0x41 = get_tag two_way_fresh 0x4F
  /\ get_set two_way_fresh 0x41 = get_set two_way_fresh 0x4F.
Proof.
  split; [reflexivity|].
  apply (same_block_iff 16 2 64 30 2 two_way_fresh 0x41 0x4F);
    try in_range; reflexivity.
Defined.

(** A write to 0x00, then 0x40 and 0x80 in the same set of the two-way cache:
    the third probe evicts the written line and reports the write-back. *)
Lemma first_eviction_writeback_witness :
  valid_config 16 2 64 = true
  /\ length write_first_trace = S (lanes two_way_fresh)
  /\ outcomes two_way_fresh write_first_trace
     = replicate (lanes two_way_fresh) (false, false) ++ [(false, true)].
Proof.
  split; [reflexivity|]. split; [reflexivity|].
  apply (first_eviction_writeback 16 2 64 30 2 two_way_fresh write_first_trace).
  - reflexivity.
  - reflexivity.
  - reflexivity.
  - intros x y Hx Hy.
    assert (Hall : Forall (fun x => get_set two_way_fresh (addr_of x) = 0)
                     write_first_trace)
      by (repeat constructor).
    rewrite Forall_forall in Hall.
    now rewrite (Hall x Hx), (Hall y Hy).
  - apply (bool_decide_unpack _). vm_compute. exact I.
Defined.

(** 0x0 and 0x4000 share set 0 of the direct-mapped cache of [main]. *)
Lemma direct_mapped_conflict_witness :
  lanes direct_fresh = 1%nat
  /\ set_base direct_fresh 0x4000 = set_base direct_fresh 0x0
  /\ get_tag direct_fresh 0x4000 <> get_tag direct_fresh 0x0
  /\ fst (snd (probe (fst (probe direct_fresh false 0x0)) false 0x4000)) = false
  /\ resident (fst (probe (fst (probe direct_fresh false 0x0)) false 0x4000))
       0x0 = false.
Proof.
  assert (Hd : get_tag direct_fresh 0x4000 <> get_tag direct_fresh 0x0)
    by (vm_compute; discriminate).
  split; [reflexivity|]. split; [reflexivity|]. split; [exact Hd|].
  exact (direct_mapped_conflict direct_fresh false 0x0 _ _ false 0x4000 _ _
           wf_direct_fresh eq_refl (surjective_pairing _) eq_refl Hd
           (surjective_pairing _)).
Defined.

(** A hit on 0x85 after the three-tag trace: 0x80 was accessed. *)
Lemma hit_needs_earlier_access_witness :
  fst (snd (probe (run two_way_fresh three_tags_trace) false 0x85)) = true
  /\ exists x, x ∈ three_tags_trace
       /\ get_tag two_way_fresh (addr_of x) = get_tag two_way_fresh 0x85
       /\ set_base two_way_fresh (addr_of x) = set_base two_way_fresh 0x85.
Proof.
  assert (Hh : fst (snd (probe (run two_way_fresh three_tags_trace) false 0x85))
               = true) by (vm_compute; reflexivity).
  split; [exact Hh|].
  exact (hit_needs_earlier_access 16 2 64 30 2 two_way_fresh three_tags_trace
           false 0x85 eq_refl two_way_fresh_new Hh).
Defined.
